(** * scripts/add_type_safety.py: the type-parameter injection script

    A shallow embedding of the script and the proofs of its specification.

    Text.  A Python [str] is a sequence of code points; here a text is a
    [list ascii], one [ascii] per code point, so the model covers texts whose
    code points lie in U+0000..U+00FF.  The classes [\w] and [\s] are the ones
    of Python's [re] for [str] patterns on that range.

    Regular expressions.  The script uses [re.search], [re.findall] and
    [re.sub] with patterns made of literal characters, character classes,
    greedy repetitions of a character class and capture groups.  [match_here]
    is a backtracking matcher for exactly that fragment, trying the longest
    repetition first as [re] does.

    Files.  [process_file] reads one file and may write it back.  A file is
    a record with its name, its text when it can be read, and whether it can
    be written; [read_text] and [write_text] raise on a file that cannot be
    read or opened for writing.  The script runs in a monad of state and exceptions
    over the file at hand and the lines printed; [main] goes through the
    sorted list of the files of the directory. *)

From Stdlib Require Import Ascii String.
From Stdlib Require Import List Bool Arith Lia.
Import ListNotations.

Local Open Scope list_scope.

(** ** Text *)

Definition text := list ascii.

Abbreviation T := list_ascii_of_string.
Abbreviation length := Datatypes.length.

Definition code (c : ascii) : nat := nat_of_ascii c.

Definition between (lo hi n : nat) : bool := (lo <=? n) && (n <=? hi).

(** [\w]: alphanumeric code points and the underscore. *)
Definition is_word (c : ascii) : bool :=
  let n := code c in
  between 48 57 n || between 65 90 n || (n =? 95) || between 97 122 n
  || (n =? 170) || between 178 179 n || (n =? 181) || between 185 186 n
  || between 188 190 n || between 192 214 n || between 216 246 n
  || between 248 255 n.

(** [\s]: white space. *)
Definition is_space (c : ascii) : bool :=
  let n := code c in
  between 9 13 n || between 28 32 n || (n =? 133) || (n =? 160).

(** A single or a double quote. *)
Definition is_quote (c : ascii) : bool :=
  Ascii.eqb c "039"%char || Ascii.eqb c "034"%char.

(** [[^>]] *)
Definition not_gt (c : ascii) : bool := negb (Ascii.eqb c ">"%char).

(** ** Regular expressions *)

Inductive tok : Type :=
| Chr (c : ascii)            (* a literal character *)
| Cls (p : ascii -> bool)    (* one character of a class *)
| Star (p : ascii -> bool)   (* p*, greedy *)
| Plus (p : ascii -> bool)   (* p+, greedy *)
| Mark.                      (* an opening or closing parenthesis of a group *)

Definition regex := list tok.

(** A literal piece of a pattern. *)
Definition lit (s : text) : regex := map Chr s.

(** A match is the matched text cut at the group parentheses, and the text
    after the match: [(p, ps, rest)] has [p] before the first parenthesis and
    [ps] the pieces that follow each parenthesis.  With groups that are not
    nested, group [k] is the piece after the parenthesis number [2k-1]. *)
Definition rmatch := (text * list text * text)%type.

Definition push (a : ascii) (m : rmatch) : rmatch :=
  let '(p, ps, rest) := m in (a :: p, ps, rest).

Definition cut (m : rmatch) : rmatch :=
  let '(p, ps, rest) := m in ([], p :: ps, rest).

Definition pieces (m : rmatch) : list text := fst (fst m) :: snd (fst m).
Definition matched (m : rmatch) : text := concat (pieces m).
Definition after (m : rmatch) : text := snd m.
Definition group (k : nat) (m : rmatch) : text := nth (2 * k - 1) (pieces m) [].

(** Greedy repetition: take characters of the class while the rest of the
    pattern [k] fails further on, the longest run first. *)
Fixpoint greedy (p : ascii -> bool) (k : text -> option rmatch) (s : text)
  : option rmatch :=
  match s with
  | a :: s' =>
      if p a then
        match greedy p k s' with
        | Some m => Some (push a m)
        | None => k s
        end
      else k s
  | [] => k s
  end.

Fixpoint match_here (re : regex) (s : text) : option rmatch :=
  match re with
  | [] => Some ([], [], s)
  | Chr c :: re' =>
      match s with
      | a :: s' => if Ascii.eqb a c then option_map (push a) (match_here re' s') else None
      | [] => None
      end
  | Cls p :: re' =>
      match s with
      | a :: s' => if p a then option_map (push a) (match_here re' s') else None
      | [] => None
      end
  | Star p :: re' => greedy p (match_here re') s
  | Plus p :: re' =>
      match s with
      | a :: s' => if p a then option_map (push a) (greedy p (match_here re') s') else None
      | [] => None
      end
  | Mark :: re' => option_map cut (match_here re' s)
  end.

(** [re.search]: the first position, from the left, where the pattern
    matches; the result carries the text before the match. *)
Fixpoint search (re : regex) (s : text) : option (text * rmatch) :=
  match match_here re s with
  | Some m => Some ([], m)
  | None =>
      match s with
      | [] => None
      | c :: s' => option_map (fun r => (c :: fst r, snd r)) (search re s')
      end
  end.

(** The scan shared by [re.findall] and [re.sub]: all matches from the left,
    none overlapping.  [skip] counts the characters of the last match still to
    step over.  After an empty match the scan moves on by one character. *)
Fixpoint finditer (re : regex) (s : text) (skip : nat) : list rmatch :=
  match skip with
  | S k => match s with [] => [] | _ :: s' => finditer re s' k end
  | O =>
      match match_here re s with
      | Some m =>
          m :: match s with
               | [] => []
               | _ :: s' => finditer re s' (Nat.pred (length (matched m)))
               end
      | None => match s with [] => [] | _ :: s' => finditer re s' 0 end
      end
  end.

(** [re.findall] for a pattern with one group: the list of the group's texts. *)
Definition findall (re : regex) (s : text) : list text :=
  map (group 1) (finditer re s 0).

(** [re.sub] with the replacement [repl] computed from each match. *)
Fixpoint sub_scan (re : regex) (repl : rmatch -> text) (s : text) (skip : nat) : text :=
  match skip with
  | S k => match s with [] => [] | _ :: s' => sub_scan re repl s' k end
  | O =>
      match match_here re s with
      | Some m =>
          repl m ++
          match length (matched m) with
          | O => match s with [] => [] | c :: s' => c :: sub_scan re repl s' 0 end
          | S k => match s with [] => [] | _ :: s' => sub_scan re repl s' k end
          end
      | None => match s with [] => [] | c :: s' => c :: sub_scan re repl s' 0 end
      end
  end.

Definition sub (re : regex) (repl : rmatch -> text) (s : text) : text :=
  sub_scan re repl s 0.

(** The number of groups of a pattern. *)
Definition is_mark (t : tok) : bool := match t with Mark => true | _ => false end.
Definition ngroups (re : regex) : nat := Nat.div2 (length (filter is_mark re)).

(** ** Replacement templates

    [re.sub] reads its replacement as a template.  The script's template has
    group references [\1], [\2] and the escape [\n]; [parse_template] knows
    these and nothing else: on any other use of a backslash it gives [None],
    where [re] would read another escape or raise.  The types the script puts
    into its template hold no backslash (see [template_parses]). *)

Inductive titem : Type :=
| TLit (c : ascii)
| TGroup (k : nat).

Definition newline : ascii := "010"%char.
Definition backslash : ascii := "\"%char.

Definition is_digit (c : ascii) : bool := between 48 57 (code c).

Definition next_is_digit (t : text) : bool :=
  match t with d :: _ => is_digit d | [] => false end.

Fixpoint parse_template (groups : nat) (t : text) : option (list titem) :=
  match t with
  | [] => Some []
  | c :: t' =>
      if Ascii.eqb c backslash then
        match t' with
        | [] => None
        | e :: t'' =>
            if Ascii.eqb e "n"%char then
              option_map (cons (TLit newline)) (parse_template groups t'')
            else if between 49 57 (code e) && negb (next_is_digit t'')
                    && (code e - 48 <=? groups) then
              option_map (cons (TGroup (code e - 48))) (parse_template groups t'')
            else None
        end
      else option_map (cons (TLit c)) (parse_template groups t')
  end.

Definition expand (items : list titem) (m : rmatch) : text :=
  flat_map (fun i => match i with TLit c => [c] | TGroup k => group k m end) items.

(** ** Exceptions, files and the output *)

Inductive exn : Type :=
| ReadError        (* [read_text] failed *)
| WriteError       (* [write_text] failed *)
| TemplateError.   (* [re.error] from the replacement template *)

Inductive outcome (A : Type) : Type :=
| Return (a : A)
| Raise (e : exn).
Arguments Return {A} a.
Arguments Raise {A} e.

(** A file of the tree: [content] is [None] when reading it fails.  A file
    that is not [writable] cannot be opened for writing: [write_text] raises
    before it touches the file, which stays as it was.  A write that fails
    after the file was opened, and so emptied, is not in this model: what is
    proved of a failed write is proved of a write refused at the opening. *)
Record file : Type := File {
  name : text;
  content : option text;
  writable : bool
}.

(** The lines the script prints. *)
Inductive event : Type :=
| AlreadyTyped (file_name : text)
| Processing (file_name : text)
| DynamicPortsNode
| Inputs (names : list text)
| Outputs (names : list text)
| WarnAlreadyHas
| WarnNoPattern
| Added (input_type output_type : text)
| NoChanges
| Error (e : exn)
| DirectoryNotFound
| Scanning
| Found (n : nat)
| FileHeader (file_name : text)
| Summary (modified skipped total : nat)
| Reminder.

(** What one call of [process_file] works on: its file and the output. *)
Record world : Type := World {
  the_file : file;
  stdout : list event
}.

(** State and exceptions: the world survives a raise. *)
Definition M (A : Type) : Type := world -> outcome A * world.

Definition ret {A} (a : A) : M A := fun w => (Return a, w).

Definition bind {A B} (m : M A) (k : A -> M B) : M B :=
  fun w => match m w with
           | (Return a, w') => k a w'
           | (Raise e, w') => (Raise e, w')
           end.

Definition raise {A} (e : exn) : M A := fun w => (Raise e, w).

Definition try_except {A} (m : M A) (h : exn -> M A) : M A :=
  fun w => match m w with
           | (Return a, w') => (Return a, w')
           | (Raise e, w') => h e w'
           end.

Notation "x <- m ;; k" := (bind m (fun x => k))
  (at level 61, m at next level, right associativity).
Notation "m ;;; k" := (bind m (fun _ => k))
  (at level 61, right associativity).

Definition print (e : event) : M unit :=
  fun w => (Return tt, World (the_file w) (stdout w ++ [e])).

Definition read_text : M text :=
  fun w => match content (the_file w) with
           | Some s => (Return s, w)
           | None => (Raise ReadError, w)
           end.

Definition write_text (s : text) : M unit :=
  fun w => if writable (the_file w)
           then (Return tt, World (File (name (the_file w)) (Some s) true) (stdout w))
           else (Raise WriteError, w).

Definition file_name : M text := fun w => (Return (name (the_file w)), w).

(** ** The script *)

Fixpoint text_eqb (a b : text) : bool :=
  match a, b with
  | [], [] => true
  | x :: a', y :: b' => Ascii.eqb x y && text_eqb a' b'
  | _, _ => false
  end.

(** [x in l] on a list of strings. *)
Definition py_in (x : text) (l : list text) : bool := existsb (text_eqb x) l.

(** The callers pass ['addInput'] or ['addOutput'] for [method]. *)
Inductive method : Type := addInput | addOutput.

Definition method_name (m : method) : text :=
  match m with addInput => T "addInput" | addOutput => T "addOutput" end.

Definition port_pattern (m : method) : regex :=
  lit (T "this.") ++ lit (method_name m) ++ lit (T "({") ++ [Star is_space]
  ++ lit (T "name:") ++ [Star is_space; Cls is_quote; Mark; Plus is_word; Mark; Cls is_quote].

Definition extract_port_names (file_content : text) (m : method) : list text :=
  findall (port_pattern m) file_content.

Definition base_pattern : regex :=
  lit (T "export class ") ++ [Plus is_word] ++ lit (T " extends ")
  ++ [Mark; Plus is_word; Mark].

Definition get_base_class (file_content : text) : option text :=
  option_map (fun r => group 1 (snd r)) (search base_pattern file_content).

Definition class_pattern : regex :=
  lit (T "export class ") ++ [Mark; Plus is_word; Mark] ++ lit (T " extends").

Definition get_class_name (file_content : text) : option text :=
  option_map (fun r => group 1 (snd r)) (search class_pattern file_content).

Definition typed_pattern : regex :=
  lit (T "extends ") ++ [Plus is_word; Chr "<"; Plus not_gt; Chr ">"].

Definition has_type_parameters (file_content : text) : bool :=
  match search typed_pattern file_content with Some _ => true | None => false end.

Definition quoted (n : text) : text := T "'" ++ n ++ T "'".

(** [sep.join(l)] *)
Fixpoint join (sep : text) (l : list text) : text :=
  match l with
  | [] => []
  | x :: l' => match l' with [] => x | _ :: _ => x ++ sep ++ join sep l' end
  end.

Definition format_type_union (names : list text) : text :=
  match names with
  | [] => T "never"
  | _ :: _ =>
      if length names =? 1 then quoted (nth 0 names [])
      else join (T " | ") (map quoted names)
  end.

Definition splice_pattern : regex :=
  [Mark] ++ lit (T "export class ") ++ [Plus is_word] ++ lit (T " extends ")
  ++ [Plus is_word; Mark; Mark; Star is_space; Chr "{"; Mark].

Definition replacement (input_type output_type : text) : text :=
  T "\1<\n  " ++ input_type ++ T ",\n  " ++ output_type ++ T "\n>\2".

(** [re.sub(pattern, replacement, string)] with a template. *)
Definition re_sub (re : regex) (template : text) (s : text) : M text :=
  match parse_template (ngroups re) template with
  | Some items => ret (sub re (expand items) s)
  | None => raise TemplateError
  end.

Definition inject_type_parameters (file_content : text) (inputs outputs : list text)
  : M text :=
  let input_type := format_type_union inputs in
  let output_type := format_type_union outputs in
  if has_type_parameters file_content then
    print WarnAlreadyHas ;;; ret file_content
  else
    modified <- re_sub splice_pattern (replacement input_type output_type) file_content ;;
    if text_eqb modified file_content then
      print WarnNoPattern ;;; ret file_content
    else ret modified.

Definition is_dynamic_ports_node (class_name : text) : bool :=
  py_in class_name [T "MergeNode"; T "SplitNode"].

(** Truth of an [Optional[str]]: [None] and the empty string are false. *)
Definition truthy (o : option text) : bool :=
  match o with Some (_ :: _) => true | _ => false end.

Definition reserved : list text := [T "Node"; T "BaseThreeNode"; T "TweakpaneNode"].

(** The port lists of lines 102-111 of [process_file]. *)
Definition select_ports (class_name content : text) : M (list text * list text) :=
  if is_dynamic_ports_node class_name then
    let inputs := [T "string"] in
    let outputs := extract_port_names content addOutput in
    let outputs := if text_eqb class_name (T "SplitNode") then [T "string"] else outputs in
    print DynamicPortsNode ;;; ret (inputs, outputs)
  else
    let inputs := extract_port_names content addInput in
    let outputs := extract_port_names content addOutput in
    ret (inputs, outputs).

Definition process_file_body : M bool :=
  content <- read_text ;;
  let class_name := get_class_name content in
  if negb (truthy class_name) then ret false else
  let base_class := get_base_class content in
  if negb (truthy base_class) then ret false else
  let class_name := match class_name with Some c => c | None => [] end in
  if py_in class_name reserved then ret false else
  fname <- file_name ;;
  if has_type_parameters content then
    print (AlreadyTyped fname) ;;; ret false
  else
    print (Processing fname) ;;;
    ports <- select_ports class_name content ;;
    let inputs := fst ports in
    let outputs := snd ports in
    print (Inputs inputs) ;;;
    print (Outputs outputs) ;;;
    modified_content <- inject_type_parameters content inputs outputs ;;
    if negb (text_eqb modified_content content) then
      write_text modified_content ;;;
      print (Added (format_type_union inputs) (format_type_union outputs)) ;;;
      ret true
    else
      print NoChanges ;;; ret false.

Definition process_file : M bool :=
  try_except process_file_body (fun e => print (Error e) ;;; ret false).

(** [process_file] on one file, with what it printed. *)
Definition run_file (f : file) : bool * file * list event :=
  let '(r, w) := process_file (World f []) in
  (match r with Return b => b | Raise _ => false end, the_file w, stdout w).

Record summary : Type := Counts {
  modified_count : nat;
  skipped_count : nat;
  total : nat
}.

(** The loop of [main] over the sorted list of files. *)
Fixpoint main_loop (files : list file) (modified skipped : nat)
  : nat * nat * list file * list event :=
  match files with
  | [] => (modified, skipped, [], [])
  | f :: files' =>
      let '(b, f', out) := run_file f in
      let '(m, s, fs, outs) :=
        if b then main_loop files' (S modified) skipped
        else main_loop files' modified (S skipped) in
      (m, s, f' :: fs, FileHeader (name f) :: out ++ outs)
  end.

(** [main]: [nodes_dir] is [None] when the directory does not exist, and else
    the sorted list of the [.ts] files below it. *)
Definition main (nodes_dir : option (list file))
  : option summary * option (list file) * list event :=
  match nodes_dir with
  | None => (None, None, [DirectoryNotFound])
  | Some ts_files =>
      let '(m, s, fs, out) := main_loop ts_files 0 0 in
      (Some (Counts m s (length ts_files)), Some fs,
       [Scanning; Found (length ts_files)] ++ out
       ++ [Summary m s (length ts_files)]
       ++ (if 0 <? m then [Reminder] else []))
  end.

(** ** What a pattern matches

    [Parses re p ps]: the pattern [re] matches the text [p ++ concat ps],
    with [p] before the first parenthesis and [ps] cut at the others. *)

Inductive Parses : regex -> text -> list text -> Prop :=
| P_nil : Parses [] [] []
| P_chr c re p ps :
    Parses re p ps -> Parses (Chr c :: re) (c :: p) ps
| P_cls q a re p ps :
    q a = true -> Parses re p ps -> Parses (Cls q :: re) (a :: p) ps
| P_star q r re p ps :
    forallb q r = true -> Parses re p ps -> Parses (Star q :: re) (r ++ p) ps
| P_plus q a r re p ps :
    q a = true -> forallb q r = true -> Parses re p ps ->
    Parses (Plus q :: re) (a :: r ++ p) ps
| P_mark re p ps :
    Parses re p ps -> Parses (Mark :: re) [] (p :: ps).

(** The pattern matches somewhere in the text. *)
Definition Occurs (re : regex) (s : text) : Prop :=
  exists pre p ps rest, s = pre ++ concat (p :: ps) ++ rest /\ Parses re p ps.

(** The characters a match of [re], or the text after an empty one, may
    start with. *)
Fixpoint first (re : regex) (c : ascii) : bool :=
  match re with
  | [] => true
  | Chr a :: _ => Ascii.eqb c a
  | Cls q :: _ => q c
  | Star q :: re' => q c || first re' c
  | Plus q :: _ => q c
  | Mark :: re' => first re' c
  end.

Definition all_ascii : list ascii := map ascii_of_nat (seq 0 256).

Definition disjoint (p q : ascii -> bool) : bool :=
  forallb (fun c => negb (p c && q c)) all_ascii.

(** No repetition of [re] can give a character back to what follows it: a
    match of such a pattern at a position is unique. *)
Fixpoint deterministic (re : regex) : bool :=
  match re with
  | [] => true
  | Star q :: re' => disjoint q (first re') && deterministic re'
  | Plus q :: re' => disjoint q (first re') && deterministic re'
  | _ :: re' => deterministic re'
  end.

(** The least length of a match. *)
Fixpoint min_len (re : regex) : nat :=
  match re with
  | [] => 0
  | Chr _ :: re' => S (min_len re')
  | Cls _ :: re' => S (min_len re')
  | Plus _ :: re' => S (min_len re')
  | _ :: re' => min_len re'
  end.

(** ** The words of the specification *)

(** A run: one or more characters of a class.  A name is a run of word
    characters. *)
Definition is_run (q : ascii -> bool) (r : text) : bool :=
  match r with [] => false | _ :: _ => forallb q r end.

Definition is_name (n : text) : bool := is_run is_word n.

(** The head of a call of the category [m] whose object literal starts with
    the quoted name [n]. *)
Definition port_call (m : method) (n call : text) : Prop :=
  exists ws1 ws2 q1 q2,
    call = T "this." ++ method_name m ++ T "({" ++ ws1 ++ T "name:" ++ ws2
           ++ [q1] ++ n ++ [q2]
    /\ forallb is_space ws1 = true /\ forallb is_space ws2 = true
    /\ is_quote q1 = true /\ is_quote q2 = true /\ is_name n = true.

(** The names of the calls of a category, read from the left: at a call head
    its name is taken and reading goes on after the head; elsewhere reading
    moves on by one character. *)
Inductive PortSeq (m : method) : text -> list text -> Prop :=
| PS_end : PortSeq m [] []
| PS_call call n rest ns :
    port_call m n call -> PortSeq m rest ns -> PortSeq m (call ++ rest) (n :: ns)
| PS_skip c s ns :
    (forall n call rest, port_call m n call -> c :: s <> call ++ rest) ->
    PortSeq m s ns -> PortSeq m (c :: s) ns.

(** A class declaration up to its opening brace, and the same declaration
    with the type parameters in place. *)
Definition declaration (x y ws : text) : text :=
  T "export class " ++ x ++ T " extends " ++ y ++ ws ++ T "{".

Definition type_block (input_type output_type : text) : text :=
  T "<" ++ [newline] ++ T "  " ++ input_type ++ T "," ++ [newline] ++ T "  "
  ++ output_type ++ [newline] ++ T ">".

Definition annotated (x y ws input_type output_type : text) : text :=
  T "export class " ++ x ++ T " extends " ++ y
  ++ type_block input_type output_type ++ ws ++ T "{".

(** A declaration without its brace. *)
Definition header (x y ws : text) : text :=
  T "export class " ++ x ++ T " extends " ++ y ++ ws.

Definition not_brace (c : ascii) : bool := negb (Ascii.eqb c "{"%char).

(** The replacement [re.sub] makes for a match of the splice pattern. *)
Definition splice (input_type output_type : text) (m : rmatch) : text :=
  group 1 m ++ type_block input_type output_type ++ group 2 m.

(** [s] has [x] as a contiguous part. *)
Definition contains (x s : text) : Prop := exists pre post, s = pre ++ x ++ post.

(** A type-parameter list right after the base class name of the first
    declaration [export class X extends Y] of the text. *)
Definition params_pattern : regex := [Chr "<"; Plus not_gt; Chr ">"].

Definition declaration_annotated (s : text) : bool :=
  match search base_pattern s with
  | Some (_, m) =>
      match match_here params_pattern (after m) with
      | Some _ => true
      | None => false
      end
  | None => false
  end.

(** [process_file] leaves the file as already annotated: it prints the
    already-typed line and nothing else, and does not touch the file. *)
Definition skipped_as_annotated (f : file) : Prop :=
  run_file f = (false, f, [AlreadyTyped (name f)]).

(** The port lists [select_ports] returns and the line it prints, as values. *)
Definition port_lists (class_name content : text) : list text * list text :=
  if is_dynamic_ports_node class_name then
    ([T "string"],
     if text_eqb class_name (T "SplitNode") then [T "string"]
     else extract_port_names content addOutput)
  else (extract_port_names content addInput, extract_port_names content addOutput).

Definition port_log (class_name : text) : list event :=
  if is_dynamic_ports_node class_name then [DynamicPortsNode] else [].

(** Characters that are inert in a replacement template and do not close a
    type-parameter list: neither a backslash nor [>]. *)
Definition is_safe (c : ascii) : bool := negb (Ascii.eqb c backslash) && not_gt c.

(** ** Sample files *)

Definition lines (l : list string) : text :=
  concat (map (fun x => T x ++ [newline]) l).

Definition foo_node : text := lines
  [ "export class FooNode extends BaseThreeNode {";
    "  constructor() {";
    "    this.addInput({ name: 'value', type: 'number' });";
    "    this.addOutput({ name: 'result', type: 'number' });";
    "  }";
    "}" ]%string.

Definition merge_node : text := lines
  [ "export class MergeNode extends BaseThreeNode {";
    "  constructor() {";
    "    this.addInput({ name: 'first' });";
    "    this.addOutput({ name: 'merged' });";
    "  }";
    "}" ]%string.

Definition split_node : text := lines
  [ "export class SplitNode extends BaseThreeNode {";
    "  constructor() {";
    "    this.addInput({ name: 'whole' });";
    "    this.addOutput({ name: 'part' });";
    "  }";
    "}" ]%string.

(** A declaration without type parameters, and a class with type parameters
    further down. *)
Definition helper_below : text := lines
  [ "export class FooNode extends BaseThreeNode {";
    "}";
    "class Helper extends Base<number> {";
    "}" ]%string.

(** The file of the scenario with a class with type parameters below it. *)
Definition foo_node_helper : text :=
  foo_node ++ lines [ "class Helper extends Base<number> {"; "}" ]%string.

Definition base_node : text := lines
  [ "export class BaseThreeNode extends Node<string> {";
    "}" ]%string.

Definition typed_node : text := lines
  [ "export class FooNode extends BaseThreeNode<'a', never> {";
    "}" ]%string.

Definition no_class : text := lines [ "export const x = 1;" ]%string.

(** A declaration the splice pattern does not match. *)
Definition implements_node : text := lines
  [ "export class FooNode extends BaseThreeNode implements Thing {";
    "}" ]%string.

Definition two_classes : text := lines
  [ "export class A extends B {";
    "}";
    "export class C extends D {";
    "}" ]%string.

(** ** Further words for the properties of the script *)

(** The head of a class declaration, as [get_class_name] looks for it. *)
Definition class_head (x : text) : text := T "export class " ++ x ++ T " extends".

Definition not_lt (c : ascii) : bool := negb (Ascii.eqb c "<"%char).

Definition not_dot (c : ascii) : bool := negb (Ascii.eqb c "."%char).

(** Equality of files, and the number of files of a tree that a run has
    changed. *)
Definition content_eqb (a b : option text) : bool :=
  match a, b with
  | Some x, Some y => text_eqb x y
  | None, None => true
  | _, _ => false
  end.

Definition file_eqb (f g : file) : bool :=
  text_eqb (name f) (name g) && content_eqb (content f) (content g)
  && Bool.eqb (writable f) (writable g).

Fixpoint changed (before after : list file) : nat :=
  match before, after with
  | f :: before', g :: after' =>
      (if file_eqb f g then 0 else 1) + changed before' after'
  | _, _ => 0
  end.

Definition is_added (e : event) : bool :=
  match e with Added _ _ => true | _ => false end.

(** [a] is [b] with characters left out. *)
Inductive Subseq : text -> text -> Prop :=
| Sub_nil : Subseq [] []
| Sub_keep c a b : Subseq a b -> Subseq (c :: a) (c :: b)
| Sub_drop c a b : Subseq a b -> Subseq a (c :: b).

(** * The matcher *)

Section Matcher.

Lemma push_fold r p ps rest :
  fold_right push (p, ps, rest) r = (r ++ p, ps, rest).
Proof.
  induction r as [|a r IH]; simpl; [reflexivity|].
  rewrite IH. reflexivity.
Qed.

Lemma eqb_true a c : Ascii.eqb a c = true -> a = c.
Proof. apply Ascii.eqb_eq. Qed.

(** What [greedy] returns is a run of the class followed by a result of the
    continuation. *)
Lemma greedy_inv p k s m :
  greedy p k s = Some m ->
  exists r s' m', s = r ++ s' /\ forallb p r = true /\ k s' = Some m'
                  /\ m = fold_right push m' r.
Proof.
  revert m. induction s as [|a s IH]; simpl; intros m H.
  - exists [], [], m. auto.
  - destruct (p a) eqn:Hp.
    + destruct (greedy p k s) as [m0|] eqn:Hg.
      * injection H as <-.
        destruct (IH _ eq_refl) as (r & s' & m' & -> & Hr & Hk & ->).
        exists (a :: r), s', m'. simpl. rewrite Hp, Hr. auto.
      * exists [], (a :: s), m. auto.
    + exists [], (a :: s), m. auto.
Qed.

Lemma greedy_complete p k r s' :
  forallb p r = true -> k s' <> None -> greedy p k (r ++ s') <> None.
Proof.
  intros Hr Hk. induction r as [|a r IH]; simpl in *.
  - destruct s' as [|b s']; simpl; [exact Hk|].
    destruct (p b); [|exact Hk].
    destruct (greedy p k s'); [discriminate|exact Hk].
  - apply andb_prop in Hr as [Ha Hr]. rewrite Ha.
    destruct (greedy p k (r ++ s')) eqn:Hg; [discriminate|].
    exfalso. apply (IH Hr). reflexivity.
Qed.

(** Soundness: a result of [match_here] is a parse of a prefix of the text. *)
Lemma match_here_sound re : forall s p ps rest,
  match_here re s = Some (p, ps, rest) ->
  Parses re p ps /\ s = p ++ concat ps ++ rest.
Proof.
  induction re as [|t re IH]; intros s p ps rest H.
  - simpl in H. injection H as <- <- <-. split; [constructor|reflexivity].
  - destruct t as [c|q|q|q|]; simpl in H.
    + destruct s as [|a s]; [discriminate|].
      destruct (Ascii.eqb a c) eqn:E; [|discriminate].
      apply eqb_true in E. subst a.
      destruct (match_here re s) as [[[p0 ps0] r0]|] eqn:Hm; [|discriminate].
      simpl in H. injection H as <- <- <-.
      destruct (IH _ _ _ _ Hm) as [HP ->]. split; [constructor; exact HP|reflexivity].
    + destruct s as [|a s]; [discriminate|].
      destruct (q a) eqn:E; [|discriminate].
      destruct (match_here re s) as [[[p0 ps0] r0]|] eqn:Hm; [|discriminate].
      simpl in H. injection H as <- <- <-.
      destruct (IH _ _ _ _ Hm) as [HP ->]. split; [constructor; assumption|reflexivity].
    + apply greedy_inv in H as (r & s' & [[p0 ps0] r0] & -> & Hr & Hk & Hm).
      rewrite push_fold in Hm. injection Hm as -> -> ->.
      destruct (IH _ _ _ _ Hk) as [HP ->].
      split; [constructor; assumption|]. rewrite <- app_assoc. reflexivity.
    + destruct s as [|a s]; [discriminate|].
      destruct (q a) eqn:E; [|discriminate].
      destruct (greedy q (match_here re) s) as [m0|] eqn:Hg; [|discriminate].
      apply greedy_inv in Hg as (r & s' & [[p0 ps0] r0] & -> & Hr & Hk & ->).
      rewrite push_fold in H. simpl in H. injection H as <- <- <-.
      destruct (IH _ _ _ _ Hk) as [HP ->].
      split; [constructor; assumption|]. simpl. rewrite <- app_assoc. reflexivity.
    + destruct (match_here re s) as [[[p0 ps0] r0]|] eqn:Hm; [|discriminate].
      simpl in H. injection H as <- <- <-.
      destruct (IH _ _ _ _ Hm) as [HP ->]. split; [constructor; exact HP|].
      simpl. rewrite <- app_assoc. reflexivity.
Qed.

(** Completeness: where a parse exists, [match_here] finds a match. *)
Lemma match_here_complete re p ps :
  Parses re p ps -> forall rest, match_here re (p ++ concat ps ++ rest) <> None.
Proof.
  induction 1 as [|c re p ps HP IH|q a re p ps Hq HP IH|q r re p ps Hr HP IH
                  |q a r re p ps Hq Hr HP IH|re p ps HP IH]; intros rest; simpl.
  - discriminate.
  - rewrite Ascii.eqb_refl. specialize (IH rest).
    destruct (match_here re (p ++ concat ps ++ rest)); [discriminate|contradiction].
  - rewrite Hq. specialize (IH rest).
    destruct (match_here re (p ++ concat ps ++ rest)); [discriminate|contradiction].
  - rewrite <- app_assoc. apply greedy_complete; [assumption|apply IH].
  - rewrite Hq. rewrite <- app_assoc.
    pose proof (greedy_complete q (match_here re) r (p ++ concat ps ++ rest) Hr (IH rest)) as G.
    destruct (greedy q (match_here re) (r ++ p ++ concat ps ++ rest)); [discriminate|contradiction].
  - specialize (IH rest). rewrite <- app_assoc.
    destruct (match_here re (p ++ concat ps ++ rest)); [discriminate|contradiction].
Qed.

Lemma all_ascii_complete c : In c all_ascii.
Proof.
  unfold all_ascii. rewrite <- (ascii_nat_embedding c).
  apply in_map. apply in_seq. pose proof (nat_ascii_bounded c). lia.
Qed.

Lemma disjoint_false p q c :
  disjoint p q = true -> p c = true -> q c = true -> False.
Proof.
  unfold disjoint. rewrite forallb_forall. intros H Hp Hq.
  specialize (H c (all_ascii_complete c)). rewrite Hp, Hq in H. discriminate.
Qed.

(** A text has one cut into a longest run of a class and a remainder. *)
Lemma span_eq (q : ascii -> bool) : forall r1 r2 x1 x2 : text,
  forallb q r1 = true -> forallb q r2 = true ->
  (forall c t, x1 = c :: t -> q c = false) ->
  (forall c t, x2 = c :: t -> q c = false) ->
  r1 ++ x1 = r2 ++ x2 -> r1 = r2 /\ x1 = x2.
Proof.
  induction r1 as [|a r1 IH]; intros r2 x1 x2 H1 H2 N1 N2 E.
  - destruct r2 as [|b r2]; [auto|]. simpl in *.
    apply andb_prop in H2 as [Hb _]. rewrite (N1 b _ E) in Hb. discriminate.
  - destruct r2 as [|b r2]; simpl in *.
    + apply andb_prop in H1 as [Ha _]. rewrite (N2 a _ (eq_sym E)) in Ha. discriminate.
    + injection E as -> E. apply andb_prop in H1 as [_ H1]. apply andb_prop in H2 as [_ H2].
      destruct (IH r2 x1 x2 H1 H2 N1 N2 E) as [-> ->]. auto.
Qed.

Lemma first_sound re p ps :
  Parses re p ps ->
  forall rest c t, p ++ concat ps ++ rest = c :: t -> first re c = true.
Proof.
  induction 1 as [|c0 re p ps HP IH|q a re p ps Hq HP IH|q r re p ps Hr HP IH
                  |q a r re p ps Hq Hr HP IH|re p ps HP IH]; intros rest c t E; simpl in *.
  - reflexivity.
  - injection E as -> _. apply Ascii.eqb_refl.
  - injection E as -> _. exact Hq.
  - destruct r as [|b r]; simpl in *.
    + rewrite (IH _ _ _ E). apply orb_true_r.
    + injection E as -> _. apply andb_prop in Hr as [-> _]. reflexivity.
  - injection E as -> _. exact Hq.
  - rewrite <- app_assoc in E. exact (IH _ _ _ E).
Qed.

(** A deterministic pattern has one parse at a position. *)
Lemma parses_unique re p ps :
  Parses re p ps -> deterministic re = true ->
  forall p' ps' rest rest', Parses re p' ps' ->
  p ++ concat ps ++ rest = p' ++ concat ps' ++ rest' ->
  p = p' /\ ps = ps' /\ rest = rest'.
Proof.
  induction 1 as [|c0 re p ps HP IH|q a re p ps Hq HP IH|q r re p ps Hr HP IH
                  |q a r re p ps Hq Hr HP IH|re p ps HP IH];
    intros D p' ps' rest rest' HP' E; inversion HP'; subst; simpl in *;
    try match goal with H : Parses re ?x ?y |- _ =>
          lazymatch x with p => fail | _ => rename H into HQ end end.
  - auto.
  - injection E as E. destruct (IH D _ _ _ _ HQ E) as (-> & -> & ->). auto.
  - injection E as -> E. destruct (IH D _ _ _ _ HQ E) as (-> & -> & ->). auto.
  - apply andb_prop in D as [Dq D]. rewrite <- !app_assoc in E.
    apply span_eq with (q := q) in E; try assumption.
    + destruct E as [-> E]. destruct (IH D _ _ _ _ HQ E) as (-> & -> & ->). auto.
    + intros c t Ec. destruct (q c) eqn:Qc; [|reflexivity].
      exfalso. exact (disjoint_false _ _ c Dq Qc (first_sound _ _ _ HP _ _ _ Ec)).
    + intros c t Ec. destruct (q c) eqn:Qc; [|reflexivity].
      exfalso. exact (disjoint_false _ _ c Dq Qc (first_sound _ _ _ HQ _ _ _ Ec)).
  - apply andb_prop in D as [Dq D]. injection E as -> E. rewrite <- !app_assoc in E.
    apply span_eq with (q := q) in E; try assumption.
    + destruct E as [-> E]. destruct (IH D _ _ _ _ HQ E) as (-> & -> & ->). auto.
    + intros c t Ec. destruct (q c) eqn:Qc; [|reflexivity].
      exfalso. exact (disjoint_false _ _ c Dq Qc (first_sound _ _ _ HP _ _ _ Ec)).
    + intros c t Ec. destruct (q c) eqn:Qc; [|reflexivity].
      exfalso. exact (disjoint_false _ _ c Dq Qc (first_sound _ _ _ HQ _ _ _ Ec)).
  - rewrite <- !app_assoc in E.
    destruct (IH D _ _ _ _ HQ E) as (-> & -> & ->). auto.
Qed.

(** On a deterministic pattern [match_here] returns the parse. *)
Lemma match_here_parse re p ps rest :
  deterministic re = true -> Parses re p ps ->
  match_here re (p ++ concat ps ++ rest) = Some (p, ps, rest).
Proof.
  intros D HP.
  destruct (match_here re (p ++ concat ps ++ rest)) as [[[p' ps'] rest']|] eqn:Hm.
  - apply match_here_sound in Hm as [HP' E].
    destruct (parses_unique _ _ _ HP D _ _ _ _ HP' E) as (-> & -> & ->). reflexivity.
  - exfalso. exact (match_here_complete _ _ _ HP rest Hm).
Qed.

Lemma parses_min_len re p ps :
  Parses re p ps -> min_len re <= length (concat (p :: ps)).
Proof.
  induction 1; simpl in *; rewrite ?length_app in *; simpl; try lia.
Qed.

Lemma match_here_min_len re s m :
  match_here re s = Some m -> min_len re <= length (matched m).
Proof.
  destruct m as [[p ps] rest]. intros H.
  apply match_here_sound in H as [HP _]. exact (parses_min_len _ _ _ HP).
Qed.

Lemma match_here_text re s m :
  match_here re s = Some m -> s = matched m ++ after m.
Proof.
  destruct m as [[p ps] rest]. intros H.
  apply match_here_sound in H as [_ ->]. unfold matched, after, pieces. simpl.
  rewrite app_assoc. reflexivity.
Qed.

(** ** [re.search] *)

Lemma search_sound re : forall s pre m,
  search re s = Some (pre, m) ->
  s = pre ++ matched m ++ after m /\ match_here re (matched m ++ after m) = Some m.
Proof.
  induction s as [|c s IH]; intros pre m H; simpl in H.
  - destruct (match_here re []) as [m0|] eqn:Hm; [|discriminate].
    injection H as <- <-. rewrite <- (match_here_text _ _ _ Hm). auto.
  - destruct (match_here re (c :: s)) as [m0|] eqn:Hm.
    + injection H as <- <-. rewrite <- (match_here_text _ _ _ Hm). auto.
    + destruct (search re s) as [[pre0 m0]|] eqn:Hs; [|discriminate].
      simpl in H. injection H as <- <-.
      destruct (IH _ _ eq_refl) as [E Hm0]. split; [|exact Hm0].
      simpl. f_equal. exact E.
Qed.

Lemma search_none re : forall pre s,
  search re (pre ++ s) = None -> match_here re s = None.
Proof.
  induction pre as [|c pre IH]; intros s H; simpl in H.
  - destruct s; simpl in H; destruct (match_here re _); try discriminate; reflexivity.
  - destruct (match_here re (c :: pre ++ s)); [discriminate|].
    destruct (search re (pre ++ s)) eqn:Hs; [discriminate|]. exact (IH _ Hs).
Qed.

(** [re.search] finds a match exactly when the pattern occurs in the text. *)
Lemma search_occurs re s : search re s <> None <-> Occurs re s.
Proof.
  split.
  - intros H. destruct (search re s) as [[pre [[p ps] rest]]|] eqn:Hs; [|contradiction].
    apply search_sound in Hs as [E Hm].
    apply match_here_sound in Hm as [HP _].
    exists pre, p, ps, rest. split; [exact E|exact HP].
  - intros (pre & p & ps & rest & -> & HP) Hs.
    apply search_none in Hs. simpl in Hs. rewrite <- app_assoc in Hs.
    exact (match_here_complete _ _ _ HP rest Hs).
Qed.

(** ** The scan of [re.sub] and [re.findall] *)

Lemma sub_scan_skip re repl : forall x s,
  sub_scan re repl (x ++ s) (length x) = sub_scan re repl s 0.
Proof.
  induction x as [|c x IH]; intros s; simpl; [destruct s; reflexivity|apply IH].
Qed.

Lemma sub_nil re repl : 0 < min_len re -> sub re repl [] = [].
Proof.
  intros L. unfold sub. simpl.
  destruct (match_here re []) as [m|] eqn:Hm; [|reflexivity].
  apply match_here_min_len in Hm as Hl. apply match_here_text in Hm.
  destruct (matched m); simpl in *; [lia|discriminate].
Qed.

Lemma sub_nomatch re repl c s :
  match_here re (c :: s) = None -> sub re repl (c :: s) = c :: sub re repl s.
Proof. intros H. unfold sub. simpl. rewrite H. reflexivity. Qed.

Lemma sub_match re repl s m :
  0 < min_len re -> match_here re s = Some m ->
  sub re repl s = repl m ++ sub re repl (after m).
Proof.
  intros L Hm. pose proof (match_here_min_len _ _ _ Hm) as Hl.
  pose proof (match_here_text _ _ _ Hm) as E.
  unfold sub. destruct s as [|c s]; simpl; rewrite Hm.
  - destruct (matched m); simpl in *; [lia|discriminate].
  - destruct (matched m) as [|a x] eqn:Ex; simpl in *; [lia|].
    injection E as _ ->. f_equal. apply sub_scan_skip.
Qed.

Lemma finditer_skip re : forall x s,
  finditer re (x ++ s) (length x) = finditer re s 0.
Proof.
  induction x as [|c x IH]; intros s; simpl; [destruct s; reflexivity|apply IH].
Qed.

Lemma finditer_nil re : 0 < min_len re -> finditer re [] 0 = [].
Proof.
  intros L. simpl.
  destruct (match_here re []) as [m|] eqn:Hm; [|reflexivity].
  apply match_here_min_len in Hm as Hl. apply match_here_text in Hm.
  destruct (matched m); simpl in *; [lia|discriminate].
Qed.

Lemma finditer_nomatch re c s :
  match_here re (c :: s) = None -> finditer re (c :: s) 0 = finditer re s 0.
Proof. intros H. simpl. rewrite H. reflexivity. Qed.

Lemma finditer_match re s m :
  0 < min_len re -> match_here re s = Some m ->
  finditer re s 0 = m :: finditer re (after m) 0.
Proof.
  intros L Hm. pose proof (match_here_min_len _ _ _ Hm) as Hl.
  pose proof (match_here_text _ _ _ Hm) as E.
  destruct s as [|c s]; simpl; rewrite Hm.
  - destruct (matched m); simpl in *; [lia|discriminate].
  - destruct (matched m) as [|a x] eqn:Ex; simpl in *; [lia|].
    injection E as _ ->. f_equal. apply finditer_skip.
Qed.

(** [re.sub] either finds no match and returns the text, or replaces the
    first match and goes on after it. *)
Lemma sub_cases re repl : 0 < min_len re -> forall s,
  (search re s = None /\ sub re repl s = s) \/
  (exists pre m, search re s = Some (pre, m)
                 /\ sub re repl s = pre ++ repl m ++ sub re repl (after m)).
Proof.
  intros L. induction s as [|c s IH].
  - simpl. destruct (match_here re []) as [m|] eqn:Hm.
    + right. exists [], m. split; [reflexivity|]. apply (sub_match _ _ _ _ L Hm).
    + left. split; [reflexivity|]. apply sub_nil. exact L.
  - simpl. destruct (match_here re (c :: s)) as [m|] eqn:Hm.
    + right. exists [], m. split; [reflexivity|]. apply (sub_match _ _ _ _ L Hm).
    + rewrite (sub_nomatch _ _ _ _ Hm).
      destruct IH as [[Hs ->]|(pre & m & Hs & ->)]; rewrite Hs; simpl.
      * left. auto.
      * right. exists (c :: pre), m. auto.
Qed.

End Matcher.

Arguments match_here : simpl never.
Arguments search : simpl never.

(** * The patterns of the script *)

(** Texts in right-nested form. *)
Ltac nf :=
  repeat first [progress simpl | rewrite <- app_assoc | rewrite app_nil_r].
Ltac nf_in H :=
  repeat first [progress simpl in H | rewrite <- app_assoc in H | rewrite app_nil_r in H].

Section Patterns.

Lemma is_run_all q r : is_run q r = true -> forallb q r = true.
Proof. destruct r; [discriminate|auto]. Qed.

Lemma P_run q r re p ps :
  is_run q r = true -> Parses re p ps -> Parses (Plus q :: re) (r ++ p) ps.
Proof.
  destruct r as [|a r]; [discriminate|]. simpl. intros H HP.
  apply andb_prop in H as [Ha Hr]. apply P_plus; assumption.
Qed.

Lemma P_lit s re p ps : Parses re p ps -> Parses (lit s ++ re) (s ++ p) ps.
Proof. intros HP. induction s as [|c s IH]; simpl; [exact HP|constructor; exact IH]. Qed.

Lemma P_run_end q r re ps :
  is_run q r = true -> Parses re [] ps -> Parses (Plus q :: re) r ps.
Proof. intros H HP. rewrite <- (app_nil_r r). apply P_run; assumption. Qed.

Lemma P_lit_end s re ps : Parses re [] ps -> Parses (lit s ++ re) s ps.
Proof. intros HP. rewrite <- (app_nil_r s) at 2. apply P_lit. exact HP. Qed.

Lemma P_lit_nil s : Parses (lit s) s [].
Proof. rewrite <- (app_nil_r (lit s)). apply P_lit_end. apply P_nil. Qed.

Lemma parses_nil_inv p ps : Parses [] p ps -> p = [] /\ ps = [].
Proof. inversion 1. auto. Qed.

Lemma parses_chr_inv c re p ps :
  Parses (Chr c :: re) p ps -> exists p', p = c :: p' /\ Parses re p' ps.
Proof. inversion 1; subst. eauto. Qed.

Lemma parses_cls_inv q re p ps :
  Parses (Cls q :: re) p ps -> exists a p', p = a :: p' /\ q a = true /\ Parses re p' ps.
Proof. inversion 1; subst. eauto. Qed.

Lemma parses_star_inv q re p ps :
  Parses (Star q :: re) p ps ->
  exists r p', p = r ++ p' /\ forallb q r = true /\ Parses re p' ps.
Proof. inversion 1; subst. eauto. Qed.

Lemma parses_plus_inv q re p ps :
  Parses (Plus q :: re) p ps ->
  exists r p', p = r ++ p' /\ is_run q r = true /\ Parses re p' ps.
Proof.
  inversion 1; subst. exists (a :: r), p0. simpl.
  repeat split; [|assumption]. apply andb_true_intro. auto.
Qed.

Lemma parses_mark_inv re p ps :
  Parses (Mark :: re) p ps ->
  p = [] /\ exists p' ps', ps = p' :: ps' /\ Parses re p' ps'.
Proof. inversion 1; subst. eauto. Qed.

(** Inversion of a parse along the pattern, token after token. *)
Ltac parse_inv H :=
  let p := fresh "p" in let r := fresh "r" in let a := fresh "a" in
  let E := fresh "E" in let R := fresh "R" in
  first
    [ apply parses_plus_inv in H as (r & p & E & R & H)
    | apply parses_star_inv in H as (r & p & E & R & H)
    | apply parses_cls_inv in H as (a & p & E & R & H)
    | apply parses_chr_inv in H as (p & E & H)
    | apply parses_nil_inv in H as (E & R)
    | apply parses_mark_inv in H as (E & p & r & R & H) ];
  subst.
Ltac parse_all H := unfold lit in H; simpl in H; repeat parse_inv H.

(** The classes of the patterns do not meet. *)
Lemma word_not_space c : is_word c = true -> is_space c = false.
Proof.
  intros H. destruct (is_space c) eqn:S; [|reflexivity].
  exfalso. apply (disjoint_false is_word is_space c); [vm_compute; reflexivity|assumption..].
Qed.

Lemma typed_pattern_parse p ps :
  Parses typed_pattern p ps <->
  ps = [] /\ exists w body,
    p = T "extends " ++ w ++ T "<" ++ body ++ T ">"
    /\ is_name w = true /\ is_run not_gt body = true.
Proof.
  unfold typed_pattern. split.
  - intros H. parse_all H. split; [reflexivity|].
    do 2 eexists. repeat split; try (nf; reflexivity); rewrite ?app_nil_r; assumption.
  - intros (-> & w & body & -> & Hw & Hb).
    apply P_lit. apply P_run; [exact Hw|]. apply P_chr.
    apply P_run; [exact Hb|]. apply P_chr. apply P_nil.
Qed.

(** [has_type_parameters] is true exactly when the text has, anywhere,
    [extends ], a name, [<], one or more characters other than [>], and [>]. *)
Lemma has_type_parameters_iff s :
  has_type_parameters s = true <->
  exists pre w body post,
    is_name w = true /\ is_run not_gt body = true
    /\ s = pre ++ T "extends " ++ w ++ T "<" ++ body ++ T ">" ++ post.
Proof.
  unfold has_type_parameters. split.
  - intros H.
    assert (O : Occurs typed_pattern s).
    { apply search_occurs. destruct (search typed_pattern s); [discriminate|discriminate]. }
    destruct O as (pre & p & ps & rest & -> & HP).
    apply typed_pattern_parse in HP as (-> & w & body & -> & Hw & Hb).
    exists pre, w, body, rest. repeat split; try assumption.
    nf. reflexivity.
  - intros (pre & w & body & post & Hw & Hb & ->).
    destruct (search typed_pattern _) eqn:Hs; [reflexivity|].
    exfalso. revert Hs. apply search_occurs.
    exists pre, (T "extends " ++ w ++ T "<" ++ body ++ T ">"), [], post.
    split.
    + nf. reflexivity.
    + apply typed_pattern_parse. split; [reflexivity|]. exists w, body. auto.
Qed.

Lemma port_pattern_parse m p ps :
  Parses (port_pattern m) p ps <->
  exists ws1 ws2 q1 n q2,
    p = T "this." ++ method_name m ++ T "({" ++ ws1 ++ T "name:" ++ ws2 ++ [q1]
    /\ ps = [n; [q2]]
    /\ forallb is_space ws1 = true /\ forallb is_space ws2 = true
    /\ is_quote q1 = true /\ is_name n = true /\ is_quote q2 = true.
Proof.
  unfold port_pattern. split.
  - intros H. destruct m; parse_all H;
    do 5 eexists; repeat split; try (nf; reflexivity); rewrite ?app_nil_r; assumption.
  - intros (ws1 & ws2 & q1 & n & q2 & -> & -> & H1 & H2 & Q1 & Hn & Q2).
    do 3 apply P_lit. apply P_star; [exact H1|]. apply P_lit.
    apply P_star; [exact H2|]. apply P_cls; [exact Q1|]. apply P_mark.
    apply P_run_end; [exact Hn|]. apply P_mark.
    apply P_cls; [exact Q2|]. apply P_nil.
Qed.

Lemma splice_pattern_parse p ps :
  Parses splice_pattern p ps <->
  exists x y ws,
    p = []
    /\ ps = [T "export class " ++ x ++ T " extends " ++ y; []; ws ++ T "{"; []]
    /\ is_name x = true /\ is_name y = true /\ forallb is_space ws = true.
Proof.
  unfold splice_pattern. split.
  - intros H. parse_all H.
    do 3 eexists. repeat split; try (nf; reflexivity); rewrite ?app_nil_r; assumption.
  - intros (x & y & ws & -> & -> & Hx & Hy & Hw).
    apply P_mark. apply P_lit. apply P_run; [exact Hx|]. apply P_lit.
    apply P_run_end; [exact Hy|]. do 2 apply P_mark.
    apply P_star; [exact Hw|]. apply P_chr. apply P_mark. apply P_nil.
Qed.

Lemma class_pattern_parse p ps :
  Parses class_pattern p ps <->
  exists x, p = T "export class " /\ ps = [x; T " extends"] /\ is_name x = true.
Proof.
  unfold class_pattern. split.
  - intros H. parse_all H.
    eexists. repeat split; try (nf; reflexivity); rewrite ?app_nil_r; assumption.
  - intros (x & -> & -> & Hx).
    apply P_lit_end. apply P_mark.
    apply P_run_end; [exact Hx|]. apply P_mark. apply P_lit_nil.
Qed.

Lemma base_pattern_parse p ps :
  Parses base_pattern p ps <->
  exists x y, p = T "export class " ++ x ++ T " extends " /\ ps = [y; []]
              /\ is_name x = true /\ is_name y = true.
Proof.
  unfold base_pattern. split.
  - intros H. parse_all H.
    do 2 eexists. repeat split; try (nf; reflexivity); rewrite ?app_nil_r; assumption.
  - intros (x & y & -> & -> & Hx & Hy).
    apply P_lit. apply P_run; [exact Hx|].
    apply P_lit_end. apply P_mark.
    apply P_run_end; [exact Hy|]. apply P_mark. apply P_nil.
Qed.

(** The patterns are deterministic and match no empty text. *)
Lemma splice_pattern_det : deterministic splice_pattern = true.
Proof. vm_compute. reflexivity. Qed.

Lemma port_pattern_det m : deterministic (port_pattern m) = true.
Proof. destruct m; vm_compute; reflexivity. Qed.

Lemma splice_pattern_len : 0 < min_len splice_pattern.
Proof. vm_compute. lia. Qed.

Lemma port_pattern_len m : 0 < min_len (port_pattern m).
Proof. destruct m; vm_compute; lia. Qed.

(** ** The extracted names *)

Lemma finditer_in re : forall s k m,
  In m (finditer re s k) -> exists s', match_here re s' = Some m.
Proof.
  induction s as [|c s IH]; intros k m H; destruct k as [|k]; simpl in H.
  - destruct (match_here re []) as [m0|] eqn:Hm; [|contradiction].
    destruct H as [<-|[]]. eauto.
  - contradiction.
  - destruct (match_here re (c :: s)) as [m0|] eqn:Hm.
    + destruct H as [<-|H]; [eauto|exact (IH _ _ H)].
    + exact (IH _ _ H).
  - exact (IH _ _ H).
Qed.

Lemma extract_port_names_names s m n :
  In n (extract_port_names s m) -> is_name n = true.
Proof.
  unfold extract_port_names, findall. intros H.
  apply in_map_iff in H as ([[p ps] rest] & <- & H).
  apply finditer_in in H as (s' & H).
  apply match_here_sound in H as [HP _].
  apply port_pattern_parse in HP
    as (ws1 & ws2 & q1 & n & q2 & -> & -> & _ & _ & _ & Hn & _).
  exact Hn.
Qed.

Lemma word_safe c : is_word c = true -> is_safe c = true.
Proof.
  assert (A : forallb (fun c => implb (is_word c) (is_safe c)) all_ascii = true)
    by (vm_compute; reflexivity).
  rewrite forallb_forall in A. specialize (A c (all_ascii_complete c)).
  intros H. rewrite H in A. exact A.
Qed.

Lemma forallb_impl (q1 q2 : ascii -> bool) (r : text) :
  (forall c, q1 c = true -> q2 c = true) -> forallb q1 r = true -> forallb q2 r = true.
Proof.
  intros I. rewrite !forallb_forall. intros H c Hc. apply I. apply H. exact Hc.
Qed.

Lemma name_safe n : is_name n = true -> forallb is_safe n = true.
Proof.
  intros H. apply is_run_all in H. revert H. apply forallb_impl. exact word_safe.
Qed.

Lemma format_type_union_one n : format_type_union [n] = quoted n.
Proof. reflexivity. Qed.

Lemma format_type_union_more n m rest :
  format_type_union (n :: m :: rest)
  = quoted n ++ T " | " ++ format_type_union (m :: rest).
Proof.
  unfold format_type_union at 1.
  change (length (n :: m :: rest) =? 1) with false. cbv iota.
  change (map quoted (n :: m :: rest)) with (quoted n :: map quoted (m :: rest)).
  change (join (T " | ") (quoted n :: map quoted (m :: rest)))
    with (quoted n ++ T " | " ++ join (T " | ") (map quoted (m :: rest))).
  do 2 f_equal. destruct rest as [|k rest]; reflexivity.
Qed.

Lemma format_type_union_safe names :
  (forall n, In n names -> forallb is_safe n = true) ->
  forallb is_safe (format_type_union names) = true.
Proof.
  induction names as [|n names IH]; intros H; [reflexivity|].
  assert (Q : forallb is_safe (quoted n) = true).
  { unfold quoted. rewrite !forallb_app. rewrite (H n (or_introl eq_refl)). reflexivity. }
  destruct names as [|m rest]; [exact Q|].
  rewrite format_type_union_more, !forallb_app, Q.
  repeat (apply andb_true_intro; split; try reflexivity).
  apply IH. intros k Hk. apply H. right. exact Hk.
Qed.

Lemma port_lists_safe cn s :
  forallb is_safe (format_type_union (fst (port_lists cn s))) = true
  /\ forallb is_safe (format_type_union (snd (port_lists cn s))) = true.
Proof.
  assert (E : forall m n, In n (extract_port_names s m) -> forallb is_safe n = true).
  { intros m n H. apply name_safe. exact (extract_port_names_names _ _ _ H). }
  unfold port_lists. destruct (is_dynamic_ports_node cn); simpl.
  - split; [reflexivity|].
    destruct (text_eqb cn _); [reflexivity|].
    apply format_type_union_safe. apply E.
  - split; apply format_type_union_safe; apply E.
Qed.

(** ** The replacement template *)

Lemma safe_not_backslash c : is_safe c = true -> Ascii.eqb c backslash = false.
Proof. unfold is_safe. destruct (Ascii.eqb c backslash); [discriminate|reflexivity]. Qed.

Lemma parse_template_safe g rest : forall t,
  forallb is_safe t = true ->
  parse_template g (t ++ rest) = option_map (app (map TLit t)) (parse_template g rest).
Proof.
  induction t as [|c t IH]; simpl; intros H.
  - destruct (parse_template g rest); reflexivity.
  - apply andb_prop in H as [Hc Ht]. rewrite (safe_not_backslash _ Hc), (IH Ht).
    destruct (parse_template g rest); reflexivity.
Qed.

Lemma template_parses input_type output_type :
  forallb is_safe input_type = true -> forallb is_safe output_type = true ->
  parse_template (ngroups splice_pattern) (replacement input_type output_type)
  = Some (TGroup 1 :: map TLit (type_block input_type output_type) ++ [TGroup 2]).
Proof.
  intros Hi Ho. change (ngroups splice_pattern) with 2.
  unfold replacement, type_block. simpl.
  rewrite (parse_template_safe _ _ _ Hi). simpl.
  rewrite (parse_template_safe _ _ _ Ho). simpl.
  repeat (rewrite !map_app; simpl). nf. reflexivity.
Qed.

Lemma expand_lits t m : expand (map TLit t) m = t.
Proof. induction t as [|c t IH]; simpl; [reflexivity|]. f_equal. exact IH. Qed.

Lemma expand_app a b m : expand (a ++ b) m = expand a m ++ expand b m.
Proof. unfold expand. apply flat_map_app. Qed.

Lemma expand_splice input_type output_type m :
  expand (TGroup 1 :: map TLit (type_block input_type output_type) ++ [TGroup 2]) m
  = splice input_type output_type m.
Proof.
  change (TGroup 1 :: map TLit (type_block input_type output_type) ++ [TGroup 2])
    with ([TGroup 1] ++ map TLit (type_block input_type output_type) ++ [TGroup 2]).
  rewrite !expand_app, expand_lits. unfold splice, expand.
  cbn [flat_map]. rewrite !app_nil_r. reflexivity.
Qed.

Lemma sub_scan_ext re r1 r2 :
  (forall m, r1 m = r2 m) -> forall s k, sub_scan re r1 s k = sub_scan re r2 s k.
Proof.
  intros E. induction s as [|c s IH]; intros k; destruct k as [|k]; simpl;
    try reflexivity; try apply IH.
  - destruct (match_here re []) as [m|]; [|reflexivity]. rewrite E.
    destruct (length (matched m)); reflexivity.
  - destruct (match_here re (c :: s)) as [m|]; [|f_equal; apply IH].
    rewrite E. destruct (length (matched m)); rewrite IH; reflexivity.
Qed.

Lemma re_sub_splice input_type output_type s w :
  forallb is_safe input_type = true -> forallb is_safe output_type = true ->
  re_sub splice_pattern (replacement input_type output_type) s w
  = (Return (sub splice_pattern (splice input_type output_type) s), w).
Proof.
  intros Hi Ho. unfold re_sub. rewrite (template_parses _ _ Hi Ho).
  unfold ret, sub. f_equal. f_equal. apply sub_scan_ext. apply expand_splice.
Qed.

End Patterns.

Arguments sub_scan : simpl never.
Arguments finditer : simpl never.

(** * Declarations in a text *)

Section Declarations.

Lemma forallb_rev (q : ascii -> bool) (r : text) :
  forallb q r = true -> forallb q (rev r) = true.
Proof.
  rewrite !forallb_forall. intros H c Hc. apply H. apply in_rev. exact Hc.
Qed.

(** A text has one cut into a remainder and a longest final run of a class. *)
Lemma span_eq_r (q : ascii -> bool) (l1 l2 r1 r2 : text) :
  forallb q r1 = true -> forallb q r2 = true ->
  (forall l c, l1 = l ++ [c] -> q c = false) ->
  (forall l c, l2 = l ++ [c] -> q c = false) ->
  l1 ++ r1 = l2 ++ r2 -> l1 = l2 /\ r1 = r2.
Proof.
  intros H1 H2 N1 N2 E.
  apply (f_equal (@rev ascii)) in E. rewrite !rev_app_distr in E.
  apply span_eq with (q := q) in E.
  - destruct E as [E1 E2].
    apply (f_equal (@rev ascii)) in E1, E2. rewrite !rev_involutive in E1, E2. auto.
  - apply forallb_rev. exact H1.
  - apply forallb_rev. exact H2.
  - intros c t Ec. apply (N1 (rev t) c).
    rewrite <- (rev_involutive l1), Ec. reflexivity.
  - intros c t Ec. apply (N2 (rev t) c).
    rewrite <- (rev_involutive l2), Ec. reflexivity.
Qed.

Lemma run_last (q : ascii -> bool) (r : text) :
  is_run q r = true -> exists r' a, r = r' ++ [a] /\ q a = true.
Proof.
  intros H. destruct (exists_last (l := r)) as (r' & a & ->).
  - intros ->. discriminate.
  - exists r', a. split; [reflexivity|].
    apply is_run_all in H. rewrite forallb_app in H.
    apply andb_prop in H as [_ H]. simpl in H. rewrite andb_true_r in H. exact H.
Qed.

Lemma ends_run (q : ascii -> bool) (pre r l : text) c :
  is_run q r = true -> pre ++ r = l ++ [c] -> q c = true.
Proof.
  intros H E. apply run_last in H as (r' & a & -> & Ha).
  rewrite app_assoc in E. apply app_inj_tail in E as [_ <-]. exact Ha.
Qed.

Lemma ends_char (pre k l : text) a c : pre ++ k ++ [a] = l ++ [c] -> c = a.
Proof. rewrite app_assoc. intros E. apply app_inj_tail in E as [_ <-]. reflexivity. Qed.

Lemma app_prefix (a u c v : text) :
  a ++ u = c ++ v -> length a <= length c -> exists t, c = a ++ t /\ u = t ++ v.
Proof.
  revert c. induction a as [|x a IH]; intros c E L; simpl in *.
  - exists c. auto.
  - destruct c as [|y c]; simpl in *; [lia|].
    injection E as -> E. destruct (IH c E) as (t & -> & ->); [lia|].
    exists t. auto.
Qed.

Lemma word_not_brace c : is_word c = true -> not_brace c = true.
Proof.
  assert (A : forallb (fun c => implb (is_word c) (not_brace c)) all_ascii = true)
    by (vm_compute; reflexivity).
  rewrite forallb_forall in A. specialize (A c (all_ascii_complete c)).
  intros H. rewrite H in A. exact A.
Qed.

Lemma space_not_brace c : is_space c = true -> not_brace c = true.
Proof.
  assert (A : forallb (fun c => implb (is_space c) (not_brace c)) all_ascii = true)
    by (vm_compute; reflexivity).
  rewrite forallb_forall in A. specialize (A c (all_ascii_complete c)).
  intros H. rewrite H in A. exact A.
Qed.

Lemma declaration_header x y ws : declaration x y ws = header x y ws ++ T "{".
Proof. unfold declaration, header. nf. reflexivity. Qed.

Lemma header_not_brace x y ws :
  is_name x = true -> is_name y = true -> forallb is_space ws = true ->
  forallb not_brace (header x y ws) = true.
Proof.
  intros Hx Hy Hw. unfold header. rewrite !forallb_app.
  apply is_run_all in Hx, Hy.
  rewrite (forallb_impl _ _ _ word_not_brace Hx), (forallb_impl _ _ _ word_not_brace Hy),
    (forallb_impl _ _ _ space_not_brace Hw).
  reflexivity.
Qed.

(** Two headers that end at the same place are the same header. *)
Lemma header_suffix b x y ws x' y' ws' :
  is_name x = true -> is_name y = true -> forallb is_space ws = true ->
  is_name x' = true -> is_name y' = true -> forallb is_space ws' = true ->
  b ++ header x y ws = header x' y' ws' -> b = [].
Proof.
  intros Hx Hy Hw Hx' Hy' Hw' E. unfold header in E.
  (* the white space before the brace *)
  assert (E1 : (b ++ T "export class " ++ x ++ T " extends " ++ y) ++ ws
               = (T "export class " ++ x' ++ T " extends " ++ y') ++ ws')
    by (rewrite <- !app_assoc; exact E).
  apply span_eq_r with (q := is_space) in E1; try assumption.
  2: { intros l c El. apply word_not_space.
       rewrite !app_assoc in El. exact (ends_run _ _ _ _ _ Hy El). }
  2: { intros l c El. apply word_not_space.
       rewrite !app_assoc in El. exact (ends_run _ _ _ _ _ Hy' El). }
  destruct E1 as [E1 _].
  (* the base class name *)
  assert (E2 : (b ++ T "export class " ++ x ++ T " extends ") ++ y
               = (T "export class " ++ x' ++ T " extends ") ++ y')
    by (rewrite <- !app_assoc; exact E1).
  apply span_eq_r with (q := is_word) in E2; try (apply is_run_all; assumption).
  2: { intros l c El. rewrite !app_assoc in El.
       change (T " extends ") with (T " extends" ++ [" "%char]) in El.
       apply ends_char in El. subst c. reflexivity. }
  2: { intros l c El. rewrite !app_assoc in El.
       change (T " extends ") with (T " extends" ++ [" "%char]) in El.
       apply ends_char in El. subst c. reflexivity. }
  destruct E2 as [E2 _].
  rewrite !app_assoc in E2. apply app_inv_tail in E2.
  (* the class name *)
  rewrite <- !app_assoc in E2. rewrite app_assoc in E2.
  apply span_eq_r with (q := is_word) in E2; try (apply is_run_all; assumption).
  2: { intros l c El.
       change (T "export class ") with (T "export class" ++ [" "%char]) in El.
       apply ends_char in El. subst c. reflexivity. }
  2: { intros l c El.
       change (T "export class ") with ([] ++ T "export class" ++ [" "%char]) in El.
       apply ends_char in El. subst c. reflexivity. }
  destruct E2 as [E2 _].
  apply (f_equal (@Datatypes.length ascii)) in E2. rewrite length_app in E2.
  destruct b; [reflexivity|]. simpl in E2. lia.
Qed.

(** The match of the splice pattern at a declaration. *)
Lemma match_here_declaration x y ws rest :
  is_name x = true -> is_name y = true -> forallb is_space ws = true ->
  match_here splice_pattern (declaration x y ws ++ rest)
  = Some ([], [T "export class " ++ x ++ T " extends " ++ y; []; ws ++ T "{"; []], rest).
Proof.
  intros Hx Hy Hw.
  pose proof (match_here_parse splice_pattern []
    [T "export class " ++ x ++ T " extends " ++ y; []; ws ++ T "{"; []] rest
    splice_pattern_det) as M.
  unfold declaration. nf. nf_in M. apply M.
  apply splice_pattern_parse. exists x, y, ws. auto.
Qed.

(** A match of the splice pattern is a declaration. *)
Lemma match_here_splice_inv s m :
  match_here splice_pattern s = Some m ->
  exists x y ws,
    is_name x = true /\ is_name y = true /\ forallb is_space ws = true
    /\ matched m = declaration x y ws
    /\ pieces m = [[]; T "export class " ++ x ++ T " extends " ++ y; []; ws ++ T "{"; []]
    /\ s = declaration x y ws ++ after m.
Proof.
  intros H. pose proof (match_here_text _ _ _ H) as E.
  destruct m as [[p ps] rest]. apply match_here_sound in H as [HP _].
  apply splice_pattern_parse in HP as (x & y & ws & -> & -> & Hx & Hy & Hw).
  exists x, y, ws. repeat split; try assumption.
  - unfold matched, pieces, declaration. nf. reflexivity.
  - rewrite E. unfold matched, pieces, declaration, after. nf. reflexivity.
Qed.

(** No match of the splice pattern runs from before a declaration into it. *)
Lemma no_straddle b x y ws post m :
  is_name x = true -> is_name y = true -> forallb is_space ws = true ->
  b <> [] ->
  match_here splice_pattern (b ++ declaration x y ws ++ post) = Some m ->
  length (matched m) <= length b.
Proof.
  intros Hx Hy Hw Hb H.
  apply match_here_splice_inv in H as (x' & y' & ws' & Hx' & Hy' & Hw' & Em & _ & E).
  rewrite Em. destruct (le_lt_dec (length (declaration x' y' ws')) (length b)) as [L|L];
    [exact L|exfalso].
  rewrite !declaration_header in E. rewrite declaration_header in L.
  rewrite length_app in L. change (length (T "{")) with 1 in L.
  pose proof (header_not_brace _ _ _ Hx Hy Hw) as N.
  pose proof (header_not_brace _ _ _ Hx' Hy' Hw') as N'.
  assert (Nb : forallb not_brace b = true).
  { rewrite <- !app_assoc in E. pose proof E as E0.
    apply app_prefix in E0 as (t & Et & _); [|lia].
    rewrite Et, forallb_app in N'. apply andb_prop in N' as [N' _]. exact N'. }
  assert (E1 : (b ++ header x y ws) ++ T "{" ++ post
               = header x' y' ws' ++ T "{" ++ after m)
    by (rewrite <- !app_assoc in E; rewrite <- !app_assoc; exact E).
  clear E. apply span_eq with (q := not_brace) in E1.
  - destruct E1 as [E1 _]. apply Hb.
    exact (header_suffix _ _ _ _ _ _ _ Hx Hy Hw Hx' Hy' Hw' E1).
  - rewrite forallb_app, Nb, N. reflexivity.
  - exact N'.
  - intros c t Ec. injection Ec as <- _. reflexivity.
  - intros c t Ec. injection Ec as <- _. reflexivity.
Qed.

(** [re.sub] on a text with a declaration in it: the declaration gets its
    type parameters, and what is before and after it is rewritten as it
    would be alone. *)
Lemma sub_splice_app ti to x y ws post :
  is_name x = true -> is_name y = true -> forallb is_space ws = true ->
  forall n pre, length pre <= n ->
  sub splice_pattern (splice ti to) (pre ++ declaration x y ws ++ post)
  = sub splice_pattern (splice ti to) pre
    ++ sub splice_pattern (splice ti to) (declaration x y ws ++ post).
Proof.
  intros Hx Hy Hw. induction n as [|n IH]; intros pre L.
  - destruct pre; [|simpl in L; lia].
    rewrite (sub_nil splice_pattern (splice ti to) splice_pattern_len).
    cbn [app]. reflexivity.
  - destruct pre as [|c pre].
    { rewrite (sub_nil splice_pattern (splice ti to) splice_pattern_len).
      cbn [app]. reflexivity. }
    destruct (match_here splice_pattern ((c :: pre) ++ declaration x y ws ++ post))
      as [m|] eqn:Hm.
    + assert (Hne : c :: pre <> []) by discriminate.
      pose proof (no_straddle _ _ _ _ _ _ Hx Hy Hw Hne Hm) as Ls.
      pose proof (match_here_min_len _ _ _ Hm) as Lm.
      pose proof splice_pattern_len as L0.
      pose proof (match_here_text _ _ _ Hm) as Et.
      symmetry in Et. apply app_prefix in Et as (t & Ep & Ea); [|exact Ls].
      rewrite (sub_match _ _ _ _ L0 Hm), Ea.
      destruct m as [[p ps] rest]. pose proof Hm as Hs.
      apply match_here_sound in Hs as [HP _].
      assert (Hm' : match_here splice_pattern (c :: pre) = Some (p, ps, t)).
      { rewrite Ep. unfold matched, pieces. simpl. rewrite <- app_assoc.
        apply match_here_parse; [exact splice_pattern_det|exact HP]. }
      rewrite (sub_match _ _ _ _ L0 Hm'). unfold after. simpl snd.
      rewrite IH.
      * rewrite <- app_assoc. reflexivity.
      * apply (f_equal (@Datatypes.length ascii)) in Ep.
        rewrite length_app in Ep. simpl in Ep, L. lia.
    + assert (Hm' : match_here splice_pattern (c :: pre) = None).
      { destruct (match_here splice_pattern (c :: pre)) as [[[p ps] rest]|] eqn:Hs;
          [exfalso|reflexivity].
        apply match_here_sound in Hs as [HP Es].
        apply (match_here_complete _ _ _ HP (rest ++ declaration x y ws ++ post)).
        rewrite <- Hm. f_equal. rewrite Es. rewrite <- !app_assoc. reflexivity. }
      simpl app in *. rewrite (sub_nomatch _ _ _ _ Hm), (sub_nomatch _ _ _ _ Hm').
      simpl. f_equal. apply IH. simpl in L. lia.
Qed.

(** Every declaration of a text is rewritten, wherever it stands. *)
Lemma sub_declaration ti to pre x y ws post :
  is_name x = true -> is_name y = true -> forallb is_space ws = true ->
  sub splice_pattern (splice ti to) (pre ++ declaration x y ws ++ post)
  = sub splice_pattern (splice ti to) pre
    ++ annotated x y ws ti to
    ++ sub splice_pattern (splice ti to) post.
Proof.
  intros Hx Hy Hw.
  rewrite (sub_splice_app ti to x y ws post Hx Hy Hw (length pre) pre (le_n _)).
  f_equal.
  rewrite (sub_match _ _ _ _ splice_pattern_len (match_here_declaration x y ws post Hx Hy Hw)).
  unfold after. simpl snd. rewrite app_assoc. f_equal.
  unfold splice, annotated, group, pieces. simpl nth. nf. reflexivity.
Qed.

End Declarations.

(** * [process_file] *)

Section ProcessFile.

Lemma text_eqb_eq a : forall b, text_eqb a b = true <-> a = b.
Proof.
  induction a as [|x a IH]; intros [|y b]; simpl; split; intros H;
    try discriminate; try reflexivity.
  - apply andb_prop in H as [E H]. apply Ascii.eqb_eq in E. apply IH in H. congruence.
  - injection H as -> ->. rewrite Ascii.eqb_refl. apply IH. reflexivity.
Qed.

Lemma text_eqb_refl a : text_eqb a a = true.
Proof. apply text_eqb_eq. reflexivity. Qed.

Lemma select_ports_eq cn s f l :
  select_ports cn s (World f l)
  = (Return (port_lists cn s), World f (l ++ port_log cn)).
Proof.
  unfold select_ports, port_lists, port_log.
  destruct (is_dynamic_ports_node cn); unfold bind, print, ret; simpl.
  - reflexivity.
  - rewrite app_nil_r. reflexivity.
Qed.

(** What [process_file] does to a file, returns and prints, case by case. *)
Lemma run_file_eq f :
  run_file f =
  match content f with
  | None => (false, f, [Error ReadError])
  | Some s =>
      if negb (truthy (get_class_name s)) then (false, f, [])
      else if negb (truthy (get_base_class s)) then (false, f, [])
      else
        let cn := match get_class_name s with Some c => c | None => [] end in
        if py_in cn reserved then (false, f, [])
        else if has_type_parameters s then (false, f, [AlreadyTyped (name f)])
        else
          let ins := fst (port_lists cn s) in
          let outs := snd (port_lists cn s) in
          let s' := sub splice_pattern
                      (splice (format_type_union ins) (format_type_union outs)) s in
          let log := [Processing (name f)] ++ port_log cn ++ [Inputs ins; Outputs outs] in
          if text_eqb s' s then (false, f, log ++ [WarnNoPattern; NoChanges])
          else if writable f then
            (true, File (name f) (Some s') true,
             log ++ [Added (format_type_union ins) (format_type_union outs)])
          else (false, f, log ++ [Error WriteError])
  end.
Proof.
  destruct f as [nm [s|] wr]; [|reflexivity].
  unfold run_file, process_file, try_except, process_file_body.
  unfold bind at 1. unfold read_text at 1. cbn [content the_file].
  destruct (negb (truthy (get_class_name s))); [reflexivity|].
  destruct (negb (truthy (get_base_class s))); [reflexivity|].
  destruct (py_in _ reserved); [reflexivity|].
  unfold bind at 1. unfold file_name at 1. cbn [name the_file].
  destruct (has_type_parameters s) eqn:Hh; [reflexivity|].
  set (cn := match get_class_name s with Some c => c | None => [] end).
  unfold bind at 1. unfold print at 1. cbn [the_file stdout app].
  unfold bind at 1. rewrite select_ports_eq.
  destruct (port_lists_safe cn s) as [Si So].
  destruct (port_lists cn s) as [ins outs]. cbn [fst snd] in *.
  unfold bind at 1. unfold print at 1. cbn [the_file stdout].
  unfold bind at 1. unfold print at 1. cbn [the_file stdout].
  unfold bind at 1. unfold inject_type_parameters. rewrite Hh.
  unfold bind at 1. rewrite (re_sub_splice _ _ _ _ Si So).
  set (s' := sub splice_pattern _ s).
  destruct (text_eqb s' s) eqn:Ht.
  - unfold bind, print, ret. cbn. rewrite text_eqb_refl. cbn.
    rewrite <- !app_assoc. reflexivity.
  - unfold ret at 1. rewrite Ht. cbn [negb].
    unfold bind at 1. unfold write_text at 1. cbn [the_file writable].
    destruct wr.
    + unfold bind, print, ret. cbn. rewrite <- !app_assoc. reflexivity.
    + unfold bind, print, ret. cbn. rewrite <- !app_assoc. reflexivity.
Qed.

(** The names the two searches for the declaration return are names. *)
Lemma search_group1_name re s :
  (forall p ps, Parses re p ps -> is_name (nth 1 (p :: ps) []) = true) ->
  Occurs re s ->
  truthy (option_map (fun r => group 1 (snd r)) (search re s)) = true.
Proof.
  intros G O. apply search_occurs in O.
  destruct (search re s) as [[pre [[p ps] rest]]|] eqn:Hs; [|contradiction].
  apply search_sound in Hs as [_ Hm]. apply match_here_sound in Hm as [HP _].
  specialize (G _ _ HP). unfold group, pieces. simpl in *.
  destruct (nth 0 ps []); [discriminate|reflexivity].
Qed.

Lemma truthy_occurs re s :
  truthy (option_map (fun r => group 1 (snd r)) (search re s)) = true -> Occurs re s.
Proof.
  intros H. apply search_occurs. destruct (search re s); [discriminate|discriminate].
Qed.

Lemma get_base_class_truthy s :
  truthy (get_base_class s) = true <-> Occurs base_pattern s.
Proof.
  split; [apply truthy_occurs|]. apply search_group1_name.
  intros p ps HP. apply base_pattern_parse in HP as (x & y & -> & -> & _ & Hy). exact Hy.
Qed.

Lemma get_class_name_truthy s :
  truthy (get_class_name s) = true <-> Occurs class_pattern s.
Proof.
  split; [apply truthy_occurs|]. apply search_group1_name.
  intros p ps HP. apply class_pattern_parse in HP as (x & -> & -> & Hx). exact Hx.
Qed.

(** Where the base class pattern matches, the class name pattern matches. *)
Lemma base_occurs_class s : Occurs base_pattern s -> Occurs class_pattern s.
Proof.
  intros (pre & p & ps & rest & -> & HP).
  apply base_pattern_parse in HP as (x & y & -> & -> & Hx & Hy).
  exists pre, (T "export class "), [x; T " extends"], (T " " ++ y ++ rest).
  split.
  - do 3 (simpl; rewrite <- ?app_assoc). reflexivity.
  - apply class_pattern_parse. exists x. auto.
Qed.

(** No declaration in the text: [process_file] leaves at once. *)
Lemma run_file_no_declaration nm s wr :
  ~ Occurs base_pattern s ->
  run_file (File nm (Some s) wr) = (false, File nm (Some s) wr, []).
Proof.
  intros N. rewrite run_file_eq. cbn [content].
  destruct (truthy (get_class_name s)) eqn:Hc; [|reflexivity]. cbn [negb].
  destruct (truthy (get_base_class s)) eqn:Hb; [|reflexivity].
  exfalso. apply N. apply get_base_class_truthy. exact Hb.
Qed.

(** [re.sub] without a match returns the text. *)
Lemma sub_no_match re repl s :
  0 < min_len re -> ~ Occurs re s -> sub re repl s = s.
Proof.
  intros L N. destruct (sub_cases re repl L s) as [[_ E]|(pre & m & Hs & _)]; [exact E|].
  exfalso. apply N. apply search_occurs. rewrite Hs. discriminate.
Qed.

End ProcessFile.

(** * The specification *)

(** C5.  The Type Annotation Synthesizer: the empty sequence gives the
    marker [never]; one name gives that name between quotes; two or more
    names give the quoted names joined by [ | ], one term per name, in the
    order of the sequence, a repeated name giving a term at each place. *)
Theorem format_type_union_spec :
  format_type_union [] = T "never"
  /\ (forall n, format_type_union [n] = T "'" ++ n ++ T "'")
  /\ (forall n m rest,
        format_type_union (n :: m :: rest)
        = T "'" ++ n ++ T "' | " ++ format_type_union (m :: rest))
  /\ (forall n m rest,
        format_type_union (n :: m :: rest)
        = join (T " | ") (map quoted (n :: m :: rest)))
  /\ (forall n, format_type_union [n; n] = T "'" ++ n ++ T "' | '" ++ n ++ T "'").
Proof.
  split; [reflexivity|]. split; [reflexivity|]. split; [|split].
  - intros n m rest. rewrite format_type_union_more. unfold quoted.
    rewrite <- !app_assoc. reflexivity.
  - reflexivity.
  - intros n. rewrite format_type_union_more, format_type_union_one. unfold quoted.
    rewrite <- !app_assoc. reflexivity.
Qed.

Section Main.

Lemma main_single f f' log :
  run_file f = (false, f', log) ->
  main (Some [f])
  = (Some (Counts 0 1 1), Some [f'],
     [Scanning; Found 1; FileHeader (name f)] ++ log ++ [Summary 0 1 1]).
Proof.
  intros H. unfold main, main_loop. rewrite H. cbn.
  rewrite app_nil_r. reflexivity.
Qed.

Lemma main_loop_counts : forall files m k m' k' fs' out,
  main_loop files m k = (m', k', fs', out) ->
  m' + k' = m + k + length files /\ length fs' = length files.
Proof.
  induction files as [|f files IH]; intros m k m' k' fs' out H.
  - cbn in H. injection H as <- <- <- <-. cbn. lia.
  - cbn [main_loop] in H. destruct (run_file f) as [[b f'] o].
    destruct b.
    + destruct (main_loop files (S m) k) as [[[m1 k1] fs1] o1] eqn:E.
      injection H as <- <- <- <-. apply IH in E. cbn. lia.
    + destruct (main_loop files m (S k)) as [[[m1 k1] fs1] o1] eqn:E.
      injection H as <- <- <- <-. apply IH in E. cbn. lia.
Qed.

Lemma main_single_modified f f' log :
  run_file f = (true, f', log) ->
  main (Some [f])
  = (Some (Counts 1 0 1), Some [f'],
     [Scanning; Found 1; FileHeader (name f)] ++ log ++ [Summary 1 0 1; Reminder]).
Proof.
  intros H. unfold main, main_loop. rewrite H. cbn.
  rewrite app_nil_r. reflexivity.
Qed.

End Main.

(** C2.  For a file whose class name is [MergeNode] or [SplitNode] the input
    annotation is the placeholder ['string'], and for [SplitNode] the output
    annotation too, whatever the calls in the text are: the port lists are
    chosen by the class name read from the declaration. *)
Theorem dynamic_ports_override nm s wr cn :
  get_class_name s = Some cn ->
  cn = T "MergeNode" \/ cn = T "SplitNode" ->
  truthy (get_base_class s) = true ->
  has_type_parameters s = false ->
  let f := File nm (Some s) wr in
  let outs := if text_eqb cn (T "SplitNode") then [T "string"]
              else extract_port_names s addOutput in
  let s' := sub splice_pattern (splice (T "'string'") (format_type_union outs)) s in
  let log := [Processing nm; DynamicPortsNode; Inputs [T "string"]; Outputs outs] in
  (forall l, select_ports cn s (World f l)
             = (Return ([T "string"], outs), World f (l ++ [DynamicPortsNode])))
  /\ format_type_union [T "string"] = T "'string'"
  /\ (cn = T "SplitNode" -> format_type_union outs = T "'string'")
  /\ run_file f
     = if text_eqb s' s then (false, f, log ++ [WarnNoPattern; NoChanges])
       else if wr then
         (true, File nm (Some s') true,
          log ++ [Added (T "'string'") (format_type_union outs)])
       else (false, f, log ++ [Error WriteError]).
Proof.
  intros Hc Hd Hb Hh f outs s' log.
  assert (Dyn : is_dynamic_ports_node cn = true) by (destruct Hd as [-> | ->]; reflexivity).
  assert (Res : py_in cn reserved = false) by (destruct Hd as [-> | ->]; reflexivity).
  assert (PL : port_lists cn s = ([T "string"], outs)).
  { unfold port_lists. rewrite Dyn. reflexivity. }
  split; [|split; [reflexivity|split]].
  - intros l. rewrite select_ports_eq, PL. unfold port_log. rewrite Dyn. reflexivity.
  - intros ->. reflexivity.
  - rewrite run_file_eq. cbn [content f name writable].
    assert (Tc : truthy (Some cn) = true) by (destruct Hd as [-> | ->]; reflexivity).
    rewrite Hc, Hb, Tc. cbn [negb]. rewrite Res, Hh, PL. unfold port_log. rewrite Dyn.
    cbn [fst snd]. reflexivity.
Qed.

Lemma dynamic_ports_override_witness :
  run_file (File (T "MergeNode.ts") (Some merge_node) true)
  = (let s' := sub splice_pattern (splice (T "'string'") (T "'merged'")) merge_node in
     (true, File (T "MergeNode.ts") (Some s') true,
      [Processing (T "MergeNode.ts"); DynamicPortsNode; Inputs [T "string"];
       Outputs [T "merged"]; Added (T "'string'") (T "'merged'")])).
Proof.
  pose proof (dynamic_ports_override (T "MergeNode.ts") merge_node true (T "MergeNode")
                eq_refl (or_introl eq_refl) eq_refl eq_refl) as H.
  exact (proj2 (proj2 (proj2 H))).
Defined.

(** C8.  A text without the declaration pattern, or without the splice
    pattern, comes back from the rewrite as it was: the file is not written
    and is counted as skipped. *)
Theorem no_match_unchanged nm s wr :
  let f := File nm (Some s) wr in
  (~ Occurs base_pattern s ->
   run_file f = (false, f, [])
   /\ main (Some [f])
      = (Some (Counts 0 1 1), Some [f], [Scanning; Found 1; FileHeader nm; Summary 0 1 1]))
  /\ (~ Occurs splice_pattern s ->
      (forall inputs outputs w,
         (forall n, In n (inputs ++ outputs) -> is_name n = true) ->
         fst (inject_type_parameters s inputs outputs w) = Return s)
      /\ exists log,
           run_file f = (false, f, log)
           /\ main (Some [f])
              = (Some (Counts 0 1 1), Some [f],
                 [Scanning; Found 1; FileHeader nm] ++ log ++ [Summary 0 1 1])).
Proof.
  intros f. subst f. split.
  - intros N. pose proof (run_file_no_declaration nm s wr N) as R.
    split; [exact R|]. rewrite (main_single _ _ _ R). reflexivity.
  - intros N.
    assert (S0 : forall repl, sub splice_pattern repl s = s)
      by (intros repl; apply sub_no_match; [exact splice_pattern_len|exact N]).
    split.
    + intros inputs outputs w Hn. unfold inject_type_parameters.
      destruct (has_type_parameters s); [reflexivity|].
      unfold bind. rewrite re_sub_splice.
      * rewrite S0, text_eqb_refl. reflexivity.
      * apply format_type_union_safe. intros n Hin. apply name_safe, Hn, in_or_app. auto.
      * apply format_type_union_safe. intros n Hin. apply name_safe, Hn, in_or_app. auto.
    + assert (R : exists log, run_file (File nm (Some s) wr) = (false, File nm (Some s) wr, log)).
      { rewrite run_file_eq. cbn [content name writable].
        destruct (negb (truthy (get_class_name s))); [eauto|].
        destruct (negb (truthy (get_base_class s))); [eauto|].
        destruct (py_in _ reserved); [eauto|].
        destruct (has_type_parameters s); [eauto|].
        cbv zeta. rewrite S0, text_eqb_refl. eauto. }
      destruct R as [log R]. exists log. split; [exact R|].
      exact (main_single _ _ _ R).
Qed.

Lemma no_match_unchanged_witness :
  run_file (File (T "a.ts") (Some no_class) true)
    = (false, File (T "a.ts") (Some no_class) true, [])
  /\ exists log,
       run_file (File (T "i.ts") (Some implements_node) true)
       = (false, File (T "i.ts") (Some implements_node) true, log).
Proof.
  split.
  - apply (proj1 (no_match_unchanged (T "a.ts") no_class true)).
    intros O. apply get_base_class_truthy in O. vm_compute in O. discriminate.
  - destruct (proj2 (no_match_unchanged (T "i.ts") implements_node true)) as [_ (log & R & _)].
    + intros O. apply search_occurs in O. vm_compute in O. apply O. reflexivity.
    + exists log. exact R.
Defined.

(** C9.  A failure while a file is read or written does not leave
    [process_file]: the error is printed, [process_file] returns [False], the
    file is counted as skipped and the loop of [main] goes on with the files
    that follow. *)
Theorem per_file_errors :
  (forall w, exists b w', process_file w = (Return b, w'))
  /\ (forall w e w',
        process_file_body w = (Raise e, w') ->
        process_file w = (Return false, World (the_file w') (stdout w' ++ [Error e])))
  /\ (forall nm wr,
        process_file_body (World (File nm None wr) [])
        = (Raise ReadError, World (File nm None wr) [])
        /\ run_file (File nm None wr) = (false, File nm None wr, [Error ReadError]))
  /\ (forall nm s f' log,
        run_file (File nm (Some s) true) = (true, f', log) ->
        exists log',
          run_file (File nm (Some s) false)
          = (false, File nm (Some s) false, log' ++ [Error WriteError]))
  /\ (forall f fs m k,
        fst (fst (run_file f)) = false ->
        main_loop (f :: fs) m k
        = (let '(m', k', fs', out) := main_loop fs m (S k) in
           (m', k', snd (fst (run_file f)) :: fs',
            FileHeader (name f) :: snd (run_file f) ++ out)))
  /\ (forall files m k m' k' fs' out,
        main_loop files m k = (m', k', fs', out) ->
        m' + k' = m + k + length files /\ length fs' = length files).
Proof.
  split; [|split; [|split; [|split; [|split]]]].
  - intros w. unfold process_file, try_except.
    destruct (process_file_body w) as [[b|e] w']; [eauto|].
    unfold bind, print, ret. eauto.
  - intros w e w' H. unfold process_file, try_except. rewrite H. reflexivity.
  - intros nm wr. split; reflexivity.
  - intros nm s f' log H. rewrite run_file_eq in H |- *. cbn [content name writable] in *.
    destruct (negb (truthy (get_class_name s))); [discriminate|].
    destruct (negb (truthy (get_base_class s))); [discriminate|].
    destruct (py_in _ reserved); [discriminate|].
    destruct (has_type_parameters s); [discriminate|].
    cbv zeta in *. destruct (text_eqb _ s); [discriminate|]. eauto.
  - intros f fs m k H. cbn [main_loop].
    destruct (run_file f) as [[b f'] out]. cbn [fst snd] in *. subst b. reflexivity.
  - exact main_loop_counts.
Qed.

Lemma per_file_errors_witness :
  main_loop [File (T "x.ts") None true; File (T "foo.ts") (Some foo_node) true] 0 0
  = (let '(m', k', fs', out) :=
       main_loop [File (T "foo.ts") (Some foo_node) true] 0 1 in
     (m', k', File (T "x.ts") None true :: fs',
      FileHeader (T "x.ts") :: [Error ReadError] ++ out)).
Proof.
  exact (proj1 (proj2 (proj2 (proj2 (proj2 per_file_errors))))
           (File (T "x.ts") None true) [File (T "foo.ts") (Some foo_node) true] 0 0
           eq_refl).
Defined.

(** C1, as the annotation check is written.  [has_type_parameters] looks at
    the whole text: [helper_below] has a declaration without type parameters
    and is left as already annotated, for the class further down. *)
Lemma annotated_elsewhere_counterexample :
  skipped_as_annotated (File (T "FooNode.ts") (Some helper_below) true)
  /\ declaration_annotated helper_below = false
  /\ ~ (skipped_as_annotated (File (T "FooNode.ts") (Some helper_below) true)
        <-> declaration_annotated helper_below = true).
Proof.
  assert (A : skipped_as_annotated (File (T "FooNode.ts") (Some helper_below) true))
    by (vm_compute; reflexivity).
  assert (B : declaration_annotated helper_below = false) by (vm_compute; reflexivity).
  split; [exact A|]. split; [exact B|].
  intros [I _]. rewrite (I A) in B. discriminate.
Qed.

(** C1, amended.  A file is left as already annotated exactly when its text
    has a class and base declaration, the class name is not reserved, and
    the text has somewhere [extends ], a name, [<], one or more characters
    other than [>], and [>]: in the declaration or anywhere else. *)
Theorem already_annotated_iff nm s wr :
  skipped_as_annotated (File nm (Some s) wr) <->
  Occurs base_pattern s
  /\ py_in (match get_class_name s with Some c => c | None => [] end) reserved = false
  /\ exists pre w body post,
       is_name w = true /\ is_run not_gt body = true
       /\ s = pre ++ T "extends " ++ w ++ T "<" ++ body ++ T ">" ++ post.
Proof.
  unfold skipped_as_annotated. rewrite run_file_eq. cbn [content name writable].
  rewrite <- has_type_parameters_iff. split.
  - intros H.
    destruct (truthy (get_class_name s)) eqn:Hc; [|discriminate].
    destruct (truthy (get_base_class s)) eqn:Hb; [|discriminate].
    cbn [negb] in H.
    destruct (py_in _ reserved); [discriminate|].
    destruct (has_type_parameters s).
    + repeat split. apply get_base_class_truthy. exact Hb.
    + exfalso. cbv zeta in H. destruct (text_eqb _ s); [|destruct wr];
        cbn [app] in H; discriminate.
  - intros (O & R & H).
    apply get_base_class_truthy in O as Hb.
    apply base_occurs_class, get_class_name_truthy in O.
    rewrite Hb, O, R, H. reflexivity.
Qed.

Section SecondRun.

Lemma safe_not_gt c : is_safe c = true -> not_gt c = true.
Proof. unfold is_safe. intros H. apply andb_prop in H as [_ H]. exact H. Qed.

(** What stands between [<] and [>] in a type block. *)
Lemma type_block_body ti to :
  forallb is_safe ti = true -> forallb is_safe to = true ->
  exists body, type_block ti to = T "<" ++ body ++ T ">" /\ is_run not_gt body = true.
Proof.
  intros Hi Ho.
  exists ([newline] ++ T "  " ++ ti ++ T "," ++ [newline] ++ T "  " ++ to ++ [newline]).
  split.
  - unfold type_block. repeat (simpl; rewrite <- ?app_assoc). reflexivity.
  - pose proof (forallb_impl _ _ _ safe_not_gt Hi) as Gi.
    pose proof (forallb_impl _ _ _ safe_not_gt Ho) as Go.
    unfold is_run. do 3 (simpl; rewrite ?forallb_app). rewrite Gi, Go. reflexivity.
Qed.

(** A text that [re.sub] has changed has type parameters. *)
Lemma modified_has_type_parameters ti to s :
  forallb is_safe ti = true -> forallb is_safe to = true ->
  sub splice_pattern (splice ti to) s <> s ->
  has_type_parameters (sub splice_pattern (splice ti to) s) = true.
Proof.
  intros Hi Ho N.
  destruct (sub_cases splice_pattern (splice ti to) splice_pattern_len s)
    as [[_ E]|(pre & m & Hs & E)]; [contradiction|].
  apply search_sound in Hs as [_ Hm].
  apply match_here_splice_inv in Hm as (x & y & ws & Hx & Hy & Hw & _ & Hp & _).
  destruct (type_block_body ti to Hi Ho) as (body & Eb & Rb).
  apply has_type_parameters_iff.
  exists (pre ++ T "export class " ++ x ++ T " "), y, body,
    (ws ++ T "{" ++ sub splice_pattern (splice ti to) (after m)).
  split; [exact Hy|]. split; [exact Rb|].
  rewrite E. unfold splice, group. rewrite Hp. cbn [nth Nat.mul Nat.add Nat.sub].
  rewrite Eb. repeat (simpl; rewrite <- ?app_assoc). reflexivity.
Qed.

(** Once through [process_file], a file is not modified by a second pass. *)
Lemma run_file_twice f b f' log :
  run_file f = (b, f', log) -> exists log', run_file f' = (false, f', log').
Proof.
  intros H. destruct f as [nm [s|] wr].
  2: { cbn in H. injection H as <- <- <-. eexists. reflexivity. }
  pose proof H as H0. rewrite run_file_eq in H. cbn [content name writable] in H.
  destruct (negb (truthy (get_class_name s))) eqn:Hc;
    [injection H as <- <- <-; eexists; exact H0|].
  destruct (negb (truthy (get_base_class s))) eqn:Hb;
    [injection H as <- <- <-; eexists; exact H0|].
  destruct (py_in _ reserved) eqn:Hr; [injection H as <- <- <-; eexists; exact H0|].
  destruct (has_type_parameters s) eqn:Hh; [injection H as <- <- <-; eexists; exact H0|].
  cbv zeta in H.
  set (cn := match get_class_name s with Some c => c | None => [] end) in *.
  destruct (port_lists_safe cn s) as [Si So].
  destruct (text_eqb _ s) eqn:Ht; [injection H as <- <- <-; eexists; exact H0|].
  destruct wr; [|injection H as <- <- <-; eexists; exact H0].
  injection H as <- <- <-.
  assert (Ne : sub splice_pattern
                 (splice (format_type_union (fst (port_lists cn s)))
                         (format_type_union (snd (port_lists cn s)))) s <> s).
  { intros E. apply text_eqb_eq in E. rewrite E in Ht. discriminate. }
  pose proof (modified_has_type_parameters _ _ s Si So Ne) as Hh'.
  clear Hc Hb Hr Hh Ht H0 Ne.
  set (s' := sub splice_pattern _ s) in *.
  rewrite run_file_eq. cbn [content name writable].
  destruct (negb (truthy (get_class_name s'))); [eexists; reflexivity|].
  destruct (negb (truthy (get_base_class s'))); [eexists; reflexivity|].
  destruct (py_in _ reserved); [eexists; reflexivity|].
  rewrite Hh'. eexists; reflexivity.
Qed.

Lemma main_loop_twice : forall files m k m1 k1 fs1 o1,
  main_loop files m k = (m1, k1, fs1, o1) ->
  forall m' k', exists o2,
    main_loop fs1 m' k' = (m', length files + k', fs1, o2).
Proof.
  induction files as [|f files IH]; intros m k m1 k1 fs1 o1 H m' k'.
  - cbn in H. injection H as <- <- <- <-. cbn. eauto.
  - cbn [main_loop] in H. destruct (run_file f) as [[b f'] o] eqn:R.
    destruct (run_file_twice _ _ _ _ R) as [o' R'].
    assert (X : exists m0 k0 fsr or, main_loop files m0 k0 = (m1, k1, fsr, or)
                                  /\ fs1 = f' :: fsr).
    { destruct b.
      - destruct (main_loop files (S m) k) as [[[a c] d] e] eqn:E.
        injection H as <- <- <- <-. eauto 6.
      - destruct (main_loop files m (S k)) as [[[a c] d] e] eqn:E.
        injection H as <- <- <- <-. eauto 6. }
    destruct X as (m0 & k0 & fsr & or & E & ->).
    destruct (IH _ _ _ _ _ _ E m' (S k')) as [o2 E2].
    cbn [main_loop]. rewrite R', E2. cbn [length].
    replace (length files + S k') with (S (length files + k')) by lia.
    eauto.
Qed.

End SecondRun.

(** C3.  A second pass changes nothing: whatever [process_file] made of a
    file, [process_file] on the result returns [False] and leaves it as it
    is, so that a second run of [main] over the tree counts every file as
    skipped; and a file that has type parameters already is left as it is. *)
Theorem second_run_skips :
  (forall f b f' log,
     run_file f = (b, f', log) -> exists log', run_file f' = (false, f', log'))
  /\ (forall nm s wr,
        has_type_parameters s = true ->
        exists log, run_file (File nm (Some s) wr) = (false, File nm (Some s) wr, log))
  /\ (forall files s1 fs1 out1,
        main (Some files) = (s1, Some fs1, out1) ->
        exists out2,
          main (Some fs1)
          = (Some (Counts 0 (length files) (length files)), Some fs1, out2)).
Proof.
  split; [exact run_file_twice|]. split.
  - intros nm s wr Hh. rewrite run_file_eq. cbn [content name writable].
    destruct (negb (truthy (get_class_name s))); [eauto|].
    destruct (negb (truthy (get_base_class s))); [eauto|].
    destruct (py_in _ reserved); [eauto|].
    rewrite Hh. eauto.
  - intros files s1 fs1 out1 H. unfold main in H.
    destruct (main_loop files 0 0) as [[[m k] fs] o] eqn:E.
    injection H as _ <- _.
    destruct (main_loop_twice _ _ _ _ _ _ _ E 0 0) as [o2 E2].
    pose proof (main_loop_counts _ _ _ _ _ _ _ E) as [_ L].
    unfold main. rewrite E2, L, Nat.add_0_r. cbn. eauto.
Qed.

Lemma second_run_skips_witness :
  exists log',
    run_file (File (T "foo.ts")
                (Some (sub splice_pattern (splice (T "'value'") (T "'result'")) foo_node))
                true)
    = (false,
       File (T "foo.ts")
         (Some (sub splice_pattern (splice (T "'value'") (T "'result'")) foo_node))
         true,
       log').
Proof.
  eapply (proj1 second_run_skips (File (T "foo.ts") (Some foo_node) true) true).
  vm_compute. reflexivity.
Defined.

Section Ports.

Lemma port_call_match m n call rest :
  port_call m n call ->
  exists p q2,
    match_here (port_pattern m) (call ++ rest) = Some (p, [n; [q2]], rest).
Proof.
  intros (ws1 & ws2 & q1 & q2 & -> & H1 & H2 & Q1 & Q2 & Hn).
  exists (T "this." ++ method_name m ++ T "({" ++ ws1 ++ T "name:" ++ ws2 ++ [q1]), q2.
  pose proof (match_here_parse (port_pattern m)
    (T "this." ++ method_name m ++ T "({" ++ ws1 ++ T "name:" ++ ws2 ++ [q1])
    [n; [q2]] rest (port_pattern_det m)) as M.
  replace ((T "this." ++ method_name m ++ T "({" ++ ws1 ++ T "name:" ++ ws2
            ++ [q1] ++ n ++ [q2]) ++ rest)
    with ((T "this." ++ method_name m ++ T "({" ++ ws1 ++ T "name:" ++ ws2 ++ [q1])
          ++ concat [n; [q2]] ++ rest).
  - apply M. apply port_pattern_parse. exists ws1, ws2, q1, n, q2. auto 10.
  - repeat (simpl; rewrite <- ?app_assoc). reflexivity.
Qed.

Lemma port_match_call m s mm :
  match_here (port_pattern m) s = Some mm ->
  exists call, port_call m (group 1 mm) call /\ s = call ++ after mm.
Proof.
  intros H. destruct mm as [[p ps] rest].
  apply match_here_sound in H as [HP ->].
  apply port_pattern_parse in HP
    as (ws1 & ws2 & q1 & n & q2 & -> & -> & H1 & H2 & Q1 & Hn & Q2).
  exists (T "this." ++ method_name m ++ T "({" ++ ws1 ++ T "name:" ++ ws2
          ++ [q1] ++ n ++ [q2]).
  split.
  - exists ws1, ws2, q1, q2. auto 10.
  - unfold after. repeat (simpl; rewrite <- ?app_assoc). reflexivity.
Qed.

Lemma port_call_cons m n call : port_call m n call -> exists t, call = "t"%char :: t.
Proof. intros (ws1 & ws2 & q1 & q2 & -> & _). simpl. eauto. Qed.

Lemma extract_nil m : extract_port_names [] m = [].
Proof.
  unfold extract_port_names, findall.
  rewrite (finditer_nil _ (port_pattern_len m)). reflexivity.
Qed.

Lemma extract_call m n call rest :
  port_call m n call ->
  extract_port_names (call ++ rest) m = n :: extract_port_names rest m.
Proof.
  intros H. destruct (port_call_match m n call rest H) as (p & q2 & Hm).
  unfold extract_port_names, findall.
  rewrite (finditer_match _ _ _ (port_pattern_len m) Hm). reflexivity.
Qed.

Lemma extract_skip m c s :
  (forall n call rest, port_call m n call -> c :: s <> call ++ rest) ->
  extract_port_names (c :: s) m = extract_port_names s m.
Proof.
  intros N. unfold extract_port_names, findall.
  rewrite finditer_nomatch; [reflexivity|].
  destruct (match_here (port_pattern m) (c :: s)) as [mm|] eqn:Hm; [exfalso|reflexivity].
  apply port_match_call in Hm as (call & Hc & E). exact (N _ _ _ Hc E).
Qed.

Lemma extract_port_seq m : forall k s, length s <= k -> PortSeq m s (extract_port_names s m).
Proof.
  induction k as [|k IH]; intros s L.
  - destruct s; [|simpl in L; lia]. rewrite extract_nil. constructor.
  - destruct s as [|c s]; [rewrite extract_nil; constructor|].
    destruct (match_here (port_pattern m) (c :: s)) as [mm|] eqn:Hm.
    + apply port_match_call in Hm as (call & Hc & E). rewrite E.
      rewrite (extract_call _ _ _ _ Hc). apply PS_call; [exact Hc|].
      apply IH. destruct (port_call_cons _ _ _ Hc) as (t & ->).
      apply (f_equal (@Datatypes.length ascii)) in E. simpl in E, L.
      rewrite length_app in E. lia.
    + assert (N : forall n call rest, port_call m n call -> c :: s <> call ++ rest).
      { intros n call rest Hc E.
        destruct (port_call_match m n call rest Hc) as (p & q2 & Hm').
        rewrite <- E, Hm in Hm'. discriminate. }
      rewrite (extract_skip _ _ _ N). apply PS_skip; [exact N|].
      apply IH. simpl in L. lia.
Qed.

Lemma port_seq_unique m s ns : PortSeq m s ns -> ns = extract_port_names s m.
Proof.
  induction 1 as [|call n rest ns Hc _ IH|c s ns N _ IH].
  - rewrite extract_nil. reflexivity.
  - rewrite (extract_call _ _ _ _ Hc), IH. reflexivity.
  - rewrite (extract_skip _ _ _ N). exact IH.
Qed.

Lemma contains_cons x c s : contains x s -> contains x (c :: s).
Proof. intros (pre & post & ->). exists (c :: pre), post. reflexivity. Qed.

Lemma port_call_contains m n call rest :
  port_call m n call -> contains (T "this." ++ method_name m ++ T "(") (call ++ rest).
Proof.
  intros (ws1 & ws2 & q1 & q2 & -> & _).
  exists [], (T "{" ++ ws1 ++ T "name:" ++ ws2 ++ [q1] ++ n ++ [q2] ++ rest).
  repeat (simpl; rewrite <- ?app_assoc). reflexivity.
Qed.

Lemma extract_no_call m : forall s,
  ~ contains (T "this." ++ method_name m ++ T "(") s -> extract_port_names s m = [].
Proof.
  induction s as [|c s IH]; intros N; [apply extract_nil|].
  rewrite extract_skip.
  - apply IH. intros C. apply N. apply contains_cons. exact C.
  - intros n call rest Hc E. apply N. rewrite E. exact (port_call_contains _ _ _ rest Hc).
Qed.

(** At a call whose object literal does not start with [name:], no name is
    taken. *)
Lemma other_field_first m ws c rest :
  forallb is_space ws = true -> is_space c = false -> c <> "n"%char ->
  match_here (port_pattern m)
    (T "this." ++ method_name m ++ T "({" ++ ws ++ c :: rest) = None.
Proof.
  intros Hw Hc Hn.
  destruct (match_here _ _) as [mm|] eqn:Hm; [exfalso|reflexivity].
  apply port_match_call in Hm
    as (call & (ws1 & ws2 & q1 & q2 & -> & H1 & _) & E).
  rewrite <- !app_assoc in E.
  apply app_inv_head in E. apply app_inv_head in E. apply app_inv_head in E.
  apply span_eq with (q := is_space) in E; try assumption.
  - destruct E as [_ E]. simpl in E. injection E as E _. exact (Hn E).
  - intros a t Ea. injection Ea as <- _. exact Hc.
  - intros a t Ea. simpl in Ea. injection Ea as <- _. reflexivity.
Qed.

End Ports.

(** C6.  The Port Extractor returns the names of the calls of a category as
    read from the left, in the order of the text and with repeated names
    kept: at a call head [this.addInput({ name: 'x'] the name is taken, and
    elsewhere nothing is.  A text without a call of the category gives the
    empty list, and a call whose object literal starts with another field
    gives no name. *)
Theorem extract_port_names_spec m s :
  PortSeq m s (extract_port_names s m)
  /\ (forall ns, PortSeq m s ns -> ns = extract_port_names s m)
  /\ (~ contains (T "this." ++ method_name m ++ T "(") s ->
      extract_port_names s m = [])
  /\ (forall ws c rest,
        forallb is_space ws = true -> is_space c = false -> c <> "n"%char ->
        s = T "this." ++ method_name m ++ T "({" ++ ws ++ c :: rest ->
        extract_port_names s m = extract_port_names (tl s) m).
Proof.
  split; [exact (extract_port_seq m (length s) s (le_n _))|].
  split; [exact (port_seq_unique m s)|].
  split; [exact (extract_no_call m s)|].
  intros ws c rest Hw Hc Hn ->.
  pose proof (other_field_first m ws c rest Hw Hc Hn) as Hm.
  unfold extract_port_names, findall.
  remember (T "this." ++ method_name m ++ T "({" ++ ws ++ c :: rest) as call eqn:E.
  destruct call as [|a call]; [discriminate|].
  rewrite (finditer_nomatch _ _ _ Hm). reflexivity.
Qed.

Lemma extract_port_names_spec_witness :
  extract_port_names
    (T "this.addInput({ type: 'number', name: 'late' }); this.addInput({ name: 'a' })")
    addInput
  = extract_port_names
      (tl (T "this.addInput({ type: 'number', name: 'late' }); this.addInput({ name: 'a' })"))
      addInput.
Proof.
  apply (proj2 (proj2 (proj2 (extract_port_names_spec addInput
           (T "this.addInput({ type: 'number', name: 'late' }); this.addInput({ name: 'a' })"))))
         (T " ") "t"%char (T "ype: 'number', name: 'late' }); this.addInput({ name: 'a' })")).
  - reflexivity.
  - reflexivity.
  - discriminate.
  - reflexivity.
Defined.



(** C4, as the scenario is stated.  [foo_node_helper] has the declaration
    of [FooNode], one input call named [value] and one output call named
    [result], and is left as it was and counted as skipped: the class below
    the declaration has type parameters, and [has_type_parameters] looks at
    the whole text. *)
Lemma foo_node_helper_counterexample :
  contains (T "export class FooNode extends BaseThreeNode {") foo_node_helper
  /\ extract_port_names foo_node_helper addInput = [T "value"]
  /\ extract_port_names foo_node_helper addOutput = [T "result"]
  /\ run_file (File (T "FooNode.ts") (Some foo_node_helper) true)
     = (false, File (T "FooNode.ts") (Some foo_node_helper) true,
        [AlreadyTyped (T "FooNode.ts")])
  /\ main (Some [File (T "FooNode.ts") (Some foo_node_helper) true])
     = (Some (Counts 0 1 1), Some [File (T "FooNode.ts") (Some foo_node_helper) true],
        [Scanning; Found 1; FileHeader (T "FooNode.ts");
         AlreadyTyped (T "FooNode.ts"); Summary 0 1 1]).
Proof.
  split.
  - exists [], (skipn 44 foo_node_helper). vm_compute. reflexivity.
  - repeat split; vm_compute; reflexivity.
Qed.

(** C4, amended.  A file that can be written, with the declaration
    [export class FooNode extends BaseThreeNode {], whose class name as
    [get_class_name] reads it is [FooNode], whose text has no type
    parameters anywhere, with one input call named [value] and one output
    call named [result], is rewritten: the declaration becomes
    [export class FooNode extends BaseThreeNode<], a new line, [  'value',],
    a new line, [  'result'], a new line and [>], followed by the white
    space and the brace it had; the file is written, and a run over this
    file reports one modified file. *)
Theorem foo_node_scenario nm pre post :
  let s := pre ++ T "export class FooNode extends BaseThreeNode {" ++ post in
  let expected :=
    T "export class FooNode extends BaseThreeNode<" ++ [newline]
    ++ T "  'value'," ++ [newline] ++ T "  'result'" ++ [newline] ++ T ">" in
  get_class_name s = Some (T "FooNode") ->
  has_type_parameters s = false ->
  extract_port_names s addInput = [T "value"] ->
  extract_port_names s addOutput = [T "result"] ->
  exists pre' post' log summary,
    run_file (File nm (Some s) true)
    = (true, File nm (Some (pre' ++ expected ++ T " {" ++ post')) true, log)
    /\ In (Added (T "'value'") (T "'result'")) log
    /\ main (Some [File nm (Some s) true])
       = (Some (Counts 1 0 1),
          Some [File nm (Some (pre' ++ expected ++ T " {" ++ post')) true], summary)
    /\ In (Summary 1 0 1) summary.
Proof.
  intros s expected Hc Hh Hi Ho.
  set (rw := sub splice_pattern (splice (T "'value'") (T "'result'"))).
  assert (E : rw s = rw pre ++ expected ++ T " {" ++ rw post).
  { unfold rw, s.
    change (T "export class FooNode extends BaseThreeNode {")
      with (declaration (T "FooNode") (T "BaseThreeNode") (T " ")).
    rewrite sub_declaration by reflexivity. reflexivity. }
  assert (Hb : truthy (get_base_class s) = true).
  { apply get_base_class_truthy.
    exists pre, (T "export class FooNode extends "), [T "BaseThreeNode"; []], (T " {" ++ post).
    split; [reflexivity|]. apply base_pattern_parse.
    exists (T "FooNode"), (T "BaseThreeNode"). auto. }
  assert (Ne : text_eqb (rw s) s = false).
  { destruct (text_eqb (rw s) s) eqn:Ht; [exfalso|reflexivity].
    apply text_eqb_eq in Ht.
    assert (Hh' : has_type_parameters (rw s) = true).
    { apply modified_has_type_parameters; try reflexivity.
      intros Eq. pose proof Hh as Hh0. rewrite <- Ht, E in Hh0.
      assert (X : has_type_parameters (rw pre ++ expected ++ T " {" ++ rw post) = true).
      { apply has_type_parameters_iff.
        exists (rw pre ++ T "export class FooNode "), (T "BaseThreeNode"),
          ([newline] ++ T "  'value'," ++ [newline] ++ T "  'result'" ++ [newline]),
          (T " {" ++ rw post).
        split; [reflexivity|]. split; [reflexivity|].
        unfold expected. repeat (simpl; rewrite <- ?app_assoc). reflexivity. }
      rewrite X in Hh0. discriminate. }
    rewrite Ht, Hh in Hh'. discriminate. }
  assert (R : run_file (File nm (Some s) true)
              = (true, File nm (Some (rw pre ++ expected ++ T " {" ++ rw post)) true,
                 [Processing nm; Inputs [T "value"]; Outputs [T "result"];
                  Added (T "'value'") (T "'result'")])).
  { rewrite run_file_eq. cbn [content name writable].
    rewrite Hc, Hb. cbn [truthy negb].
    change (py_in (T "FooNode") reserved) with false. cbv iota.
    rewrite Hh. unfold port_lists, port_log.
    change (is_dynamic_ports_node (T "FooNode")) with false. cbv iota zeta.
    cbn [fst snd]. rewrite Hi, Ho.
    change (format_type_union [T "value"]) with (T "'value'").
    change (format_type_union [T "result"]) with (T "'result'").
    fold rw. rewrite Ne, E. reflexivity. }
  exists (rw pre), (rw post). do 2 eexists.
  split; [exact R|]. split; [simpl; auto 6|].
  split; [exact (main_single_modified _ _ _ R)|].
  simpl. auto 10.
Qed.

Lemma foo_node_scenario_witness :
  exists pre' post' log summary,
    let expected :=
      T "export class FooNode extends BaseThreeNode<" ++ [newline]
      ++ T "  'value'," ++ [newline] ++ T "  'result'" ++ [newline] ++ T ">" in
    run_file (File (T "FooNode.ts") (Some foo_node) true)
    = (true,
       File (T "FooNode.ts") (Some (pre' ++ expected ++ T " {" ++ post')) true, log)
    /\ In (Added (T "'value'") (T "'result'")) log
    /\ main (Some [File (T "FooNode.ts") (Some foo_node) true])
       = (Some (Counts 1 0 1),
          Some [File (T "FooNode.ts") (Some (pre' ++ expected ++ T " {" ++ post')) true],
          summary)
    /\ In (Summary 1 0 1) summary.
Proof.
  apply (foo_node_scenario (T "FooNode.ts") []
           (skipn 44 foo_node)).
  - vm_compute. reflexivity.
  - vm_compute. reflexivity.
  - vm_compute. reflexivity.
  - vm_compute. reflexivity.
Defined.

(** * Further properties of the script *)

Section Searches.

Lemma search_eq re s :
  search re s
  = match match_here re s with
    | Some m => Some ([], m)
    | None =>
        match s with
        | [] => None
        | c :: s' => option_map (fun r => (c :: fst r, snd r)) (search re s')
        end
    end.
Proof. destruct s; reflexivity. Qed.

(** [re.search] returns the leftmost match. *)
Lemma search_leftmost re : forall s pre m,
  search re s = Some (pre, m) ->
  forall a b, pre = a ++ b -> b <> [] ->
  match_here re (b ++ matched m ++ after m) = None.
Proof.
  induction s as [|c s IH]; intros pre m H a b E Hb; rewrite search_eq in H.
  - destruct (match_here re []); [|discriminate].
    injection H as <- _. destruct a; destruct b; try discriminate. contradiction.
  - destruct (match_here re (c :: s)) as [m0|] eqn:Hm.
    + injection H as <- _. destruct a; destruct b; try discriminate. contradiction.
    + destruct (search re s) as [[pre0 m0]|] eqn:Hs; [|discriminate].
      simpl in H. injection H as <- <-.
      destruct a as [|x a]; simpl in E.
      * subst b. apply search_sound in Hs as [Es _].
        simpl. rewrite <- Es. exact Hm.
      * injection E as _ E. exact (IH _ _ eq_refl _ _ E Hb).
Qed.

Lemma search_first_occurrence re s pre m pre' p ps rest :
  search re s = Some (pre, m) -> Parses re p ps ->
  s = pre' ++ concat (p :: ps) ++ rest -> length pre <= length pre'.
Proof.
  intros Hs HP E.
  destruct (le_lt_dec (length pre) (length pre')) as [L|L]; [exact L|exfalso].
  pose proof (search_leftmost _ _ _ _ Hs) as Lm.
  apply search_sound in Hs as [Es _]. rewrite Es in E. symmetry in E.
  apply app_prefix in E as (t & Et & E2); [|lia].
  assert (Ht : t <> []).
  { intros ->. rewrite app_nil_r in Et. subst pre'. lia. }
  specialize (Lm pre' t Et Ht). rewrite <- E2 in Lm.
  simpl in Lm. rewrite <- app_assoc in Lm.
  exact (match_here_complete _ _ _ HP rest Lm).
Qed.

Lemma class_head_parse x :
  is_name x = true -> Parses class_pattern (T "export class ") [x; T " extends"].
Proof. intros Hx. apply class_pattern_parse. exists x. auto. Qed.

Lemma class_head_concat x rest :
  concat (T "export class " :: [x; T " extends"]) ++ rest = class_head x ++ rest.
Proof. unfold class_head. repeat (simpl; rewrite <- ?app_assoc). reflexivity. Qed.

End Searches.

(** X1.  [get_class_name] returns the name of the leftmost
    [export class X extends] of the text, a non-empty run of word
    characters, and returns [None] only for a text without one. *)
Theorem get_class_name_leftmost s :
  (forall x, get_class_name s = Some x ->
     is_name x = true
     /\ exists pre rest,
          s = pre ++ class_head x ++ rest
          /\ forall pre' x' rest',
               is_name x' = true -> s = pre' ++ class_head x' ++ rest' ->
               length pre <= length pre')
  /\ (forall pre x rest,
        is_name x = true -> s = pre ++ class_head x ++ rest ->
        get_class_name s <> None).
Proof.
  split.
  - intros x H. unfold get_class_name in H.
    destruct (search class_pattern s) as [[pre [[p ps] rest]]|] eqn:Hs; [|discriminate].
    simpl in H. injection H as <-.
    pose proof Hs as Hs0. apply search_sound in Hs as [Es Hm].
    apply match_here_sound in Hm as [HP _].
    apply class_pattern_parse in HP as (x & -> & -> & Hx).
    split; [exact Hx|]. exists pre, rest. split.
    + rewrite Es. unfold matched, pieces, after. cbn [fst snd].
      rewrite class_head_concat. reflexivity.
    + intros pre' x' rest' Hx' E.
      apply (search_first_occurrence _ _ _ _ _ _ _ rest' Hs0 (class_head_parse x' Hx')).
      rewrite class_head_concat. exact E.
  - intros pre x rest Hx E H.
    assert (O : Occurs class_pattern s).
    { exists pre, (T "export class "), [x; T " extends"], rest.
      split; [rewrite class_head_concat; exact E|exact (class_head_parse x Hx)]. }
    apply get_class_name_truthy in O. rewrite H in O. discriminate.
Qed.

Lemma get_class_name_leftmost_witness :
  get_class_name two_classes <> None.
Proof.
  apply (proj2 (get_class_name_leftmost two_classes)
           [] (T "A") (skipn 22 two_classes)).
  - reflexivity.
  - reflexivity.
Defined.

Section GreedyEnd.

Lemma after_push a m : after (push a m) = after m.
Proof. destruct m as [[p ps] rest]. reflexivity. Qed.

Lemma after_cut m : after (cut m) = after m.
Proof. destruct m as [[p ps] rest]. reflexivity. Qed.

Lemma after_fold r m : after (fold_right push m r) = after m.
Proof. induction r as [|a r IH]; simpl; [reflexivity|]. rewrite after_push. exact IH. Qed.

Lemma match_here_mark s : match_here [Mark] s = Some ([], [[]], s).
Proof. reflexivity. Qed.

Lemma match_here_cons tk re s :
  match_here (tk :: re) s
  = match tk with
    | Chr c =>
        match s with
        | a :: s' => if Ascii.eqb a c then option_map (push a) (match_here re s') else None
        | [] => None
        end
    | Cls p =>
        match s with
        | a :: s' => if p a then option_map (push a) (match_here re s') else None
        | [] => None
        end
    | Star p => greedy p (match_here re) s
    | Plus p =>
        match s with
        | a :: s' => if p a then option_map (push a) (greedy p (match_here re) s') else None
        | [] => None
        end
    | Mark => option_map cut (match_here re s)
    end.
Proof. destruct tk; reflexivity. Qed.

(** A repetition with nothing to match after it takes the whole run. *)
Lemma greedy_last q : forall s m,
  greedy q (match_here [Mark]) s = Some m ->
  forall c t, after m = c :: t -> q c = false.
Proof.
  induction s as [|a s IH]; intros m H c t E.
  - cbn [greedy] in H. rewrite match_here_mark in H. injection H as <-. discriminate.
  - cbn [greedy] in H. destruct (q a) eqn:Qa.
    + destruct (greedy q (match_here [Mark]) s) as [m0|] eqn:G.
      * injection H as <-. rewrite after_push in E. exact (IH _ eq_refl _ _ E).
      * exfalso. revert G. apply (greedy_complete q _ [] s eq_refl).
        rewrite match_here_mark. discriminate.
    + rewrite match_here_mark in H. injection H as <-.
      cbn in E. injection E as <- _. exact Qa.
Qed.

Lemma match_here_last q : forall re s m,
  match_here (re ++ [Plus q; Mark]) s = Some m ->
  forall c t, after m = c :: t -> q c = false.
Proof.
  induction re as [|tk re IH]; intros s m H c t E.
  - cbn [app] in H. rewrite match_here_cons in H. destruct s as [|a s]; [discriminate|].
    destruct (q a); [|discriminate].
    destruct (greedy q (match_here [Mark]) s) as [m0|] eqn:G; [|discriminate].
    cbn in H. injection H as <-. rewrite after_push in E.
    exact (greedy_last q _ _ G _ _ E).
  - cbn [app] in H. rewrite match_here_cons in H. destruct tk as [a|p|p|p|].
    + destruct s as [|b s]; [discriminate|]. destruct (Ascii.eqb b a); [|discriminate].
      destruct (match_here (re ++ [Plus q; Mark]) s) as [m0|] eqn:G; [|discriminate].
      cbn in H. injection H as <-. rewrite after_push in E. exact (IH _ _ G _ _ E).
    + destruct s as [|b s]; [discriminate|]. destruct (p b); [|discriminate].
      destruct (match_here (re ++ [Plus q; Mark]) s) as [m0|] eqn:G; [|discriminate].
      cbn in H. injection H as <-. rewrite after_push in E. exact (IH _ _ G _ _ E).
    + apply greedy_inv in H as (r & s' & m' & _ & _ & G & ->).
      rewrite after_fold in E. exact (IH _ _ G _ _ E).
    + destruct s as [|b s]; [discriminate|]. destruct (p b); [|discriminate].
      destruct (greedy p (match_here (re ++ [Plus q; Mark])) s) as [m0|] eqn:G0;
        [|discriminate].
      cbn in H. injection H as <-. rewrite after_push in E.
      apply greedy_inv in G0 as (r & s' & m' & _ & _ & G & ->).
      rewrite after_fold in E. exact (IH _ _ G _ _ E).
    + destruct (match_here (re ++ [Plus q; Mark]) s) as [m0|] eqn:G; [|discriminate].
      cbn in H. injection H as <-. rewrite after_cut in E. exact (IH _ _ G _ _ E).
Qed.

End GreedyEnd.

(** X2.  [get_base_class] returns the base class name of an
    [export class X extends Y] of the text: a non-empty run of word
    characters, taken whole (what follows it is not a word character); and
    where it finds a base class, [get_class_name] finds a class name. *)
Theorem get_base_class_found s y :
  get_base_class s = Some y ->
  is_name y = true
  /\ (exists pre x rest,
        is_name x = true
        /\ s = pre ++ class_head x ++ T " " ++ y ++ rest
        /\ forall c t, rest = c :: t -> is_word c = false)
  /\ get_class_name s <> None.
Proof.
  intros H.
  assert (Tb : truthy (get_base_class s) = true).
  { apply get_base_class_truthy, search_occurs. unfold get_base_class in H.
    destruct (search base_pattern s); [discriminate|discriminate]. }
  unfold get_base_class in H.
  destruct (search base_pattern s) as [[pre [[p ps] rest]]|] eqn:Hs; [|discriminate].
  simpl in H. injection H as <-.
  apply search_sound in Hs as [Es Hm].
  pose proof (match_here_last is_word
    (lit (T "export class ") ++ [Plus is_word] ++ lit (T " extends ") ++ [Mark])) as Last.
  specialize (Last _ _ Hm).
  apply match_here_sound in Hm as [HP _].
  apply base_pattern_parse in HP as (x & z & -> & -> & Hx & Hz).
  split; [exact Hz|]. split.
  - exists pre, x, rest. split; [exact Hx|]. split; [|exact Last].
    rewrite Es. unfold matched, pieces, after, class_head. cbn [fst snd].
    repeat (simpl; rewrite <- ?app_assoc). reflexivity.
  - intros N. apply get_base_class_truthy, base_occurs_class, get_class_name_truthy in Tb.
    rewrite N in Tb. discriminate.
Qed.

Lemma get_base_class_found_witness :
  is_name (T "BaseThreeNode") = true
  /\ (exists pre x rest,
        is_name x = true
        /\ typed_node = pre ++ class_head x ++ T " " ++ T "BaseThreeNode" ++ rest
        /\ forall c t, rest = c :: t -> is_word c = false)
  /\ get_class_name typed_node <> None.
Proof.
  apply (get_base_class_found typed_node (T "BaseThreeNode")).
  vm_compute. reflexivity.
Defined.

(** X3.  [has_type_parameters] looks anywhere in the text: a text that has
    type parameters keeps them under any text put before and after it. *)
Theorem has_type_parameters_context pre s post :
  has_type_parameters s = true -> has_type_parameters (pre ++ s ++ post) = true.
Proof.
  intros H. apply has_type_parameters_iff in H
    as (a & w & body & b & Hw & Hb & ->).
  apply has_type_parameters_iff.
  exists (pre ++ a), w, body, (b ++ post). split; [exact Hw|]. split; [exact Hb|].
  repeat (simpl; rewrite <- ?app_assoc). reflexivity.
Qed.

Lemma has_type_parameters_context_witness :
  has_type_parameters (T "// generated" ++ typed_node ++ foo_node) = true.
Proof.
  apply (has_type_parameters_context (T "// generated") typed_node foo_node).
  vm_compute. reflexivity.
Defined.

Section Splits.

(** A text with one [c] is cut at it in one way. *)
Lemma split_unique (q : ascii -> bool) c (A B A' B' : text) :
  q c = false -> forallb q A = true -> forallb q B = true ->
  A ++ c :: B = A' ++ c :: B' -> A = A' /\ B = B'.
Proof.
  intros Qc HA HB E.
  destruct (le_lt_dec (length A) (length A')) as [L|L].
  - apply app_prefix in E as (t & -> & E); [|exact L].
    destruct t as [|x t].
    + rewrite app_nil_r. injection E as ->. auto.
    + exfalso. simpl in E. injection E as <- ->.
      rewrite forallb_app in HB. simpl in HB. rewrite Qc in HB.
      rewrite andb_false_r in HB. discriminate.
  - symmetry in E. apply app_prefix in E as (t & -> & E); [|lia].
    destruct t as [|x t].
    + rewrite app_nil_r in L. lia.
    + exfalso. simpl in E. injection E as <- _.
      rewrite forallb_app in HA. simpl in HA. rewrite Qc in HA.
      rewrite andb_false_r in HA. discriminate.
Qed.

End Splits.

(** X4.  An empty parameter list is no type-parameter list for
    [has_type_parameters]: a text whose only [<] is followed at once by [>]
    has none. *)
Theorem has_type_parameters_empty_list a b :
  forallb not_lt a = true -> forallb not_lt b = true ->
  has_type_parameters (a ++ T "<>" ++ b) = false.
Proof.
  intros Ha Hb.
  destruct (has_type_parameters (a ++ T "<>" ++ b)) eqn:H; [exfalso|reflexivity].
  apply has_type_parameters_iff in H as (pre & w & body & post & _ & Hbody & E).
  assert (E' : a ++ "<"%char :: (">"%char :: b)
               = (pre ++ T "extends " ++ w) ++ "<"%char :: (body ++ T ">" ++ post)).
  { rewrite <- !app_assoc. exact E. }
  apply split_unique with (q := not_lt) in E' as [_ E']; try assumption; try reflexivity.
  destruct body as [|c body]; [discriminate|].
  simpl in Hbody. apply andb_prop in Hbody as [Hc _].
  simpl in E'. injection E' as <- _. discriminate.
Qed.

Lemma has_type_parameters_empty_list_witness :
  has_type_parameters (T "export class A extends B" ++ T "<>" ++ T " {}") = false.
Proof.
  apply (has_type_parameters_empty_list (T "export class A extends B") (T " {}"));
    reflexivity.
Defined.

(** The two ways [process_file] ends: the file as it was and [False], or
    the file rewritten and [True]. *)
Lemma run_file_outcome f b f' log :
  run_file f = (b, f', log) ->
  (b = false /\ f' = f)
  \/ (b = true /\ exists s ti to,
        content f = Some s /\ writable f = true
        /\ has_type_parameters s = false
        /\ f' = File (name f) (Some (sub splice_pattern (splice ti to) s)) true
        /\ sub splice_pattern (splice ti to) s <> s
        /\ has_type_parameters (sub splice_pattern (splice ti to) s) = true).
Proof.
  intros H. destruct f as [nm [s|] wr].
  2: { cbn in H. injection H as <- <- _. auto. }
  rewrite run_file_eq in H. cbn [content name writable] in H.
  destruct (negb (truthy (get_class_name s))); [injection H as <- <- _; auto|].
  destruct (negb (truthy (get_base_class s))); [injection H as <- <- _; auto|].
  destruct (py_in _ reserved); [injection H as <- <- _; auto|].
  destruct (has_type_parameters s) eqn:Hh; [injection H as <- <- _; auto|].
  cbv zeta in H.
  set (cn := match get_class_name s with Some c => c | None => [] end) in *.
  destruct (port_lists_safe cn s) as [Si So].
  destruct (text_eqb _ s) eqn:Ht; [injection H as <- <- _; auto|].
  destruct wr; [|injection H as <- <- _; auto].
  injection H as <- <- _. right. split; [reflexivity|].
  assert (Ne : sub splice_pattern
                 (splice (format_type_union (fst (port_lists cn s)))
                         (format_type_union (snd (port_lists cn s)))) s <> s).
  { intros E. apply text_eqb_eq in E. rewrite E in Ht. discriminate. }
  exists s, (format_type_union (fst (port_lists cn s))),
    (format_type_union (snd (port_lists cn s))).
  cbn [content name writable].
  repeat split; try reflexivity; try assumption.
  exact (modified_has_type_parameters _ _ s Si So Ne).
Qed.

(** X5.  When [process_file] returns [True] it has rewritten the file: the
    file could be read and written, its text had no type parameters, and the
    text written differs from it and has type parameters.  When it returns
    [False] and has printed no write error, the file is as it was; so, apart
    from a failed write, it returns [True] exactly when it has changed the
    file. *)
Theorem process_file_flag f b f' log :
  run_file f = (b, f', log) ->
  (b = true ->
   exists s s',
     content f = Some s /\ writable f = true
     /\ has_type_parameters s = false
     /\ f' = File (name f) (Some s') true
     /\ s' <> s /\ has_type_parameters s' = true)
  /\ (b = false -> ~ In (Error WriteError) log -> f' = f)
  /\ (~ In (Error WriteError) log -> (b = true <-> f' <> f)).
Proof.
  intros H.
  destruct (run_file_outcome _ _ _ _ H)
    as [[-> ->]|(-> & s & ti & to & Hc & Hw & Hh & -> & Ne & Hh')].
  - split; [discriminate|]. split; [reflexivity|].
    intros _. split; [discriminate|]. intros N. contradiction.
  - split; [|split; [discriminate|]].
    + intros _. exists s, (sub splice_pattern (splice ti to) s). auto 10.
    + intros _. split; [|reflexivity].
      intros _ E. apply (f_equal content) in E. cbn [content] in E.
      rewrite Hc in E. injection E as E. contradiction.
Qed.

Lemma process_file_flag_witness :
  exists s s',
    content (File (T "foo.ts") (Some foo_node) true) = Some s
    /\ writable (File (T "foo.ts") (Some foo_node) true) = true
    /\ has_type_parameters s = false
    /\ File (T "foo.ts")
         (Some (sub splice_pattern (splice (T "'value'") (T "'result'")) foo_node)) true
       = File (name (File (T "foo.ts") (Some foo_node) true)) (Some s') true
    /\ s' <> s /\ has_type_parameters s' = true.
Proof.
  refine (proj1 (process_file_flag (File (T "foo.ts") (Some foo_node) true) true
            (File (T "foo.ts")
               (Some (sub splice_pattern (splice (T "'value'") (T "'result'")) foo_node))
               true)
            [Processing (T "foo.ts"); Inputs [T "value"]; Outputs [T "result"];
             Added (T "'value'") (T "'result'")] _) eq_refl).
  vm_compute. reflexivity.
Defined.

(** X7.  The replacement given to [re.sub] is always a template [re]
    accepts: the names put into it are runs of word characters or [string],
    so [process_file] never fails on the template. *)
Theorem process_file_template_accepted f :
  ~ In (Error TemplateError) (snd (run_file f)).
Proof.
  destruct f as [nm [s|] wr].
  2: { cbn. intros [H|[]]. discriminate. }
  rewrite run_file_eq. cbn [content name writable].
  destruct (negb (truthy (get_class_name s))); [intros []|].
  destruct (negb (truthy (get_base_class s))); [intros []|].
  destruct (py_in _ reserved); [intros []|].
  destruct (has_type_parameters s); [intros [H|[]]; discriminate|].
  cbv zeta. unfold port_log.
  destruct (text_eqb _ s); [|destruct wr];
    destruct (is_dynamic_ports_node _); cbn;
    intuition discriminate.
Qed.

Section Inserts.

Lemma Subseq_refl a : Subseq a a.
Proof. induction a; constructor; assumption. Qed.

Lemma Subseq_app a a' b b' : Subseq a a' -> Subseq b b' -> Subseq (a ++ b) (a' ++ b').
Proof. intros H K. induction H; simpl; [exact K|constructor; assumption..]. Qed.

Lemma Subseq_insert x a b : Subseq a b -> Subseq a (x ++ b).
Proof. intros H. induction x; simpl; [exact H|constructor; assumption]. Qed.

Lemma Subseq_length a b : Subseq a b -> length a <= length b.
Proof. induction 1; simpl; lia. Qed.

(** [re.sub] with the splice pattern deletes nothing. *)
Lemma sub_inserts ti to : forall n s, length s <= n ->
  Subseq s (sub splice_pattern (splice ti to) s)
  /\ length (sub splice_pattern (splice ti to) s)
     = length s + length (finditer splice_pattern s 0) * length (type_block ti to).
Proof.
  induction n as [|n IH]; intros s L.
  - destruct s; [|simpl in L; lia].
    rewrite (sub_nil splice_pattern (splice ti to) splice_pattern_len),
      (finditer_nil splice_pattern splice_pattern_len).
    split; [constructor|reflexivity].
  - destruct s as [|c s].
    { rewrite (sub_nil splice_pattern (splice ti to) splice_pattern_len),
      (finditer_nil splice_pattern splice_pattern_len).
      split; [constructor|reflexivity]. }
    destruct (match_here splice_pattern (c :: s)) as [m|] eqn:Hm.
    + rewrite (sub_match _ _ _ _ splice_pattern_len Hm),
        (finditer_match _ _ _ splice_pattern_len Hm).
      apply match_here_splice_inv in Hm as (x & y & ws & _ & _ & _ & _ & Hp & E).
      assert (La : length (after m) <= n).
      { apply (f_equal (@Datatypes.length ascii)) in E. rewrite length_app in E.
        unfold declaration in E. rewrite length_app in E. simpl in E, L. lia. }
      destruct (IH _ La) as [S1 S2].
      assert (Es : splice ti to m
                   = (T "export class " ++ x ++ T " extends " ++ y)
                     ++ type_block ti to ++ ws ++ T "{").
      { unfold splice, group. rewrite Hp. reflexivity. }
      rewrite Es, E. unfold declaration. split.
      * rewrite <- !app_assoc. do 4 (apply Subseq_app; [apply Subseq_refl|]).
        apply Subseq_insert. do 2 (apply Subseq_app; [apply Subseq_refl|]). exact S1.
      * rewrite !length_app, S2. cbn [length]. rewrite ?length_app. lia.
    + rewrite (sub_nomatch _ _ _ _ Hm), (finditer_nomatch _ _ _ Hm).
      destruct (IH s) as [S1 S2]; [simpl in L; lia|].
      split; [constructor; exact S1|]. cbn [length]. rewrite S2. reflexivity.
Qed.

End Inserts.

Section Processed.

Lemma finditer_occurs re : 0 < min_len re -> forall s,
  search re s <> None -> finditer re s 0 <> [].
Proof.
  intros L. induction s as [|c s IH]; intros H; rewrite search_eq in H.
  - destruct (match_here re []) as [m|] eqn:Hm; [|contradiction].
    rewrite (finditer_match _ _ _ L Hm). discriminate.
  - destruct (match_here re (c :: s)) as [m|] eqn:Hm.
    + rewrite (finditer_match _ _ _ L Hm). discriminate.
    + rewrite (finditer_nomatch _ _ _ Hm). apply IH.
      destruct (search re s); [discriminate|contradiction].
Qed.

(** Where the splice pattern matches, [re.sub] changes the text. *)
Lemma sub_changes ti to s :
  Occurs splice_pattern s -> sub splice_pattern (splice ti to) s <> s.
Proof.
  intros O E. apply search_occurs in O.
  apply (finditer_occurs _ splice_pattern_len) in O.
  pose proof (proj2 (sub_inserts ti to (length s) s (le_n _))) as Ln.
  rewrite E in Ln.
  destruct (finditer splice_pattern s 0) as [|m ms]; [contradiction|].
  unfold type_block in Ln. cbn [length app] in Ln. simpl in Ln. lia.
Qed.

End Processed.

(** C7, as the claim counts the skips.  [implements_node] has a class and
    base declaration, a class name that is not reserved and no type
    parameters, and is left as it was all the same, without an error, and
    counted as skipped: the splice pattern does not match it. *)
Lemma fourth_skip_counterexample :
  truthy (get_class_name implements_node) = true
  /\ truthy (get_base_class implements_node) = true
  /\ get_class_name implements_node = Some (T "FooNode")
  /\ py_in (T "FooNode") reserved = false
  /\ has_type_parameters implements_node = false
  /\ run_file (File (T "i.ts") (Some implements_node) true)
     = (false, File (T "i.ts") (Some implements_node) true,
        [Processing (T "i.ts"); Inputs []; Outputs []; WarnNoPattern; NoChanges])
  /\ main (Some [File (T "i.ts") (Some implements_node) true])
     = (Some (Counts 0 1 1), Some [File (T "i.ts") (Some implements_node) true],
        [Scanning; Found 1; FileHeader (T "i.ts"); Processing (T "i.ts");
         Inputs []; Outputs []; WarnNoPattern; NoChanges; Summary 0 1 1]).
Proof. repeat split; vm_compute; reflexivity. Qed.

(** C7, amended.  A file is left alone before any work on it, with nothing
    written and no error, in three cases looked at in this order: the text
    has no class and base declaration; the class name is a reserved base
    class name; the text has type parameters already.  The first case that
    holds ends the work on the file.  A file in none of the three cases is
    processed with the port lists of [select_ports]: where the splice
    pattern does not match its text it is left as it was, without an error;
    where the pattern matches, the text changes, and the file is written
    and [True] returned if it can be written, and else the write error is
    printed and [False] returned. *)
Theorem skip_policy nm s wr :
  let f := File nm (Some s) wr in
  let cn := match get_class_name s with Some c => c | None => [] end in
  let ins := fst (port_lists cn s) in
  let outs := snd (port_lists cn s) in
  let s' := sub splice_pattern
              (splice (format_type_union ins) (format_type_union outs)) s in
  let log := [Processing nm] ++ port_log cn ++ [Inputs ins; Outputs outs] in
  (~ Occurs base_pattern s -> run_file f = (false, f, []))
  /\ (Occurs base_pattern s -> py_in cn reserved = true ->
      run_file f = (false, f, []))
  /\ (Occurs base_pattern s -> py_in cn reserved = false ->
      has_type_parameters s = true ->
      run_file f = (false, f, [AlreadyTyped nm]))
  /\ (Occurs base_pattern s -> py_in cn reserved = false ->
      has_type_parameters s = false ->
      (~ Occurs splice_pattern s ->
       run_file f = (false, f, log ++ [WarnNoPattern; NoChanges]))
      /\ (Occurs splice_pattern s ->
          s' <> s
          /\ (wr = true ->
              run_file f
              = (true, File nm (Some s') true,
                 log ++ [Added (format_type_union ins) (format_type_union outs)]))
          /\ (wr = false ->
              fst (fst (run_file f)) = false
              /\ snd (run_file f) = log ++ [Error WriteError])))
  /\ (forall l, select_ports cn s (World f l)
                = (Return (ins, outs), World f (l ++ port_log cn))).
Proof.
  intros f cn ins outs s' log.
  split; [apply run_file_no_declaration|].
  assert (E : Occurs base_pattern s ->
              negb (truthy (get_class_name s)) = false
              /\ negb (truthy (get_base_class s)) = false).
  { intros O. split; apply negb_false_iff.
    - apply get_class_name_truthy. apply base_occurs_class. exact O.
    - apply get_base_class_truthy. exact O. }
  split; [|split; [|split]].
  - intros O R. destruct (E O) as [Ec Eb].
    rewrite run_file_eq. cbn [content f name writable]. rewrite Ec, Eb. fold cn.
    rewrite R. reflexivity.
  - intros O R H. destruct (E O) as [Ec Eb].
    rewrite run_file_eq. cbn [content f name writable]. rewrite Ec, Eb. fold cn.
    rewrite R, H. reflexivity.
  - intros O R H. destruct (E O) as [Ec Eb].
    assert (Q : run_file f
                = if text_eqb s' s then (false, f, log ++ [WarnNoPattern; NoChanges])
                  else if wr then
                    (true, File nm (Some s') true,
                     log ++ [Added (format_type_union ins) (format_type_union outs)])
                  else (false, f, log ++ [Error WriteError])).
    { rewrite run_file_eq. cbn [content f name writable]. rewrite Ec, Eb. fold cn.
      rewrite R, H. reflexivity. }
    split.
    + intros N. rewrite Q. unfold s'.
      rewrite (sub_no_match _ _ _ splice_pattern_len N), text_eqb_refl. reflexivity.
    + intros Os. assert (Ne : s' <> s) by (apply sub_changes; exact Os).
      assert (Ht : text_eqb s' s = false).
      { destruct (text_eqb s' s) eqn:Ht; [|reflexivity].
        apply text_eqb_eq in Ht. contradiction. }
      rewrite Ht in Q. split; [exact Ne|]. split; intros ->; rewrite Q; auto.
  - intros l. unfold ins, outs. rewrite select_ports_eq.
    destruct (port_lists cn s). reflexivity.
Qed.

Lemma skip_policy_witness :
  run_file (File (T "a.ts") (Some no_class) true)
    = (false, File (T "a.ts") (Some no_class) true, [])
  /\ run_file (File (T "b.ts") (Some base_node) true)
    = (false, File (T "b.ts") (Some base_node) true, [])
  /\ run_file (File (T "c.ts") (Some typed_node) true)
    = (false, File (T "c.ts") (Some typed_node) true, [AlreadyTyped (T "c.ts")])
  /\ run_file (File (T "i.ts") (Some implements_node) true)
    = (false, File (T "i.ts") (Some implements_node) true,
       [Processing (T "i.ts"); Inputs []; Outputs []; WarnNoPattern; NoChanges])
  /\ run_file (File (T "d.ts") (Some foo_node) true)
    = (true,
       File (T "d.ts")
         (Some (sub splice_pattern (splice (T "'value'") (T "'result'")) foo_node)) true,
       [Processing (T "d.ts"); Inputs [T "value"]; Outputs [T "result"];
        Added (T "'value'") (T "'result'")]).
Proof.
  split; [|split; [|split; [|split]]].
  - apply (proj1 (skip_policy (T "a.ts") no_class true)).
    intros O. apply get_base_class_truthy in O. vm_compute in O. discriminate.
  - apply (proj1 (proj2 (skip_policy (T "b.ts") base_node true))).
    + apply get_base_class_truthy. vm_compute. reflexivity.
    + vm_compute. reflexivity.
  - apply (proj1 (proj2 (proj2 (skip_policy (T "c.ts") typed_node true)))).
    + apply get_base_class_truthy. vm_compute. reflexivity.
    + vm_compute. reflexivity.
    + vm_compute. reflexivity.
  - apply (proj1 (proj1 (proj2 (proj2 (proj2
             (skip_policy (T "i.ts") implements_node true))))
             ltac:(apply get_base_class_truthy; vm_compute; reflexivity)
             eq_refl eq_refl)).
    intros O. apply search_occurs in O. vm_compute in O. apply O. reflexivity.
  - apply (proj1 (proj2 (proj2 (proj1 (proj2 (proj2 (proj2
             (skip_policy (T "d.ts") foo_node true))))
             ltac:(apply get_base_class_truthy; vm_compute; reflexivity)
             eq_refl eq_refl)
             ltac:(apply search_occurs; vm_compute; discriminate)))).
    reflexivity.
Defined.

(** X6.  The rewrite deletes nothing: the text is what [re.sub] returns
    with characters left out, and [re.sub] returns a text longer by one
    type block for each match of the splice pattern.  So the text
    [inject_type_parameters] is given is in the text it returns, in order. *)
Theorem rewrite_only_inserts :
  (forall ti to s,
     Subseq s (sub splice_pattern (splice ti to) s)
     /\ length (sub splice_pattern (splice ti to) s)
        = length s
          + length (finditer splice_pattern s 0) * length (type_block ti to))
  /\ (forall s inputs outputs w s',
        (forall n, In n (inputs ++ outputs) -> is_name n = true) ->
        fst (inject_type_parameters s inputs outputs w) = Return s' ->
        Subseq s s').
Proof.
  split.
  - intros ti to s. exact (sub_inserts ti to (length s) s (le_n _)).
  - intros s inputs outputs w s' Hn H.
    unfold inject_type_parameters in H.
    destruct (has_type_parameters s).
    + cbn in H. injection H as <-. apply Subseq_refl.
    + unfold bind in H. rewrite re_sub_splice in H.
      * destruct (text_eqb _ s).
        -- cbn in H. injection H as <-. apply Subseq_refl.
        -- cbn in H. injection H as <-.
           exact (proj1 (sub_inserts _ _ (length s) s (le_n _))).
      * apply format_type_union_safe. intros n Hin. apply name_safe, Hn, in_or_app. auto.
      * apply format_type_union_safe. intros n Hin. apply name_safe, Hn, in_or_app. auto.
Qed.

Lemma rewrite_only_inserts_witness :
  Subseq foo_node
    (sub splice_pattern (splice (T "'value'") (T "'result'")) foo_node).
Proof.
  apply (proj2 rewrite_only_inserts foo_node [T "value"] [T "result"]
           (World (File [] None true) [])).
  - intros n [<-|[<-|[]]]; reflexivity.
  - vm_compute. reflexivity.
Defined.

Section CallHeads.

Lemma class_impl (p q : ascii -> bool) :
  forallb (fun c => implb (p c) (q c)) all_ascii = true ->
  forall c, p c = true -> q c = true.
Proof.
  intros A c H. rewrite forallb_forall in A.
  specialize (A c (all_ascii_complete c)). rewrite H in A. exact A.
Qed.

Lemma word_not_dot c : is_word c = true -> not_dot c = true.
Proof. apply class_impl. vm_compute. reflexivity. Qed.

Lemma space_not_dot c : is_space c = true -> not_dot c = true.
Proof. apply class_impl. vm_compute. reflexivity. Qed.

Lemma quote_not_dot c : is_quote c = true -> not_dot c = true.
Proof. apply class_impl. vm_compute. reflexivity. Qed.

(** A call head is [this.] and a text without a dot that ends with a quote. *)
Lemma port_call_shape m n call :
  port_call m n call ->
  exists body q, call = T "this" ++ "."%char :: body ++ [q]
                 /\ forallb not_dot (body ++ [q]) = true /\ is_quote q = true.
Proof.
  intros (ws1 & ws2 & q1 & q2 & -> & H1 & H2 & Q1 & Q2 & Hn).
  exists (method_name m ++ T "({" ++ ws1 ++ T "name:" ++ ws2 ++ [q1] ++ n), q2.
  split; [repeat (simpl; rewrite <- ?app_assoc); reflexivity|].
  split; [|exact Q2].
  apply is_run_all in Hn.
  rewrite !forallb_app.
  rewrite (forallb_impl _ _ _ space_not_dot H1), (forallb_impl _ _ _ space_not_dot H2),
    (forallb_impl _ _ _ word_not_dot Hn).
  simpl. rewrite (quote_not_dot _ Q1), (quote_not_dot _ Q2).
  destruct m; reflexivity.
Qed.

(** No match of a port pattern runs from before a [this.] into it. *)
Lemma port_no_straddle m b R mm :
  b <> [] ->
  match_here (port_pattern m) (b ++ T "this." ++ R) = Some mm ->
  length (matched mm) <= length b.
Proof.
  intros Hb Hm.
  pose proof (match_here_text _ _ _ Hm) as Et.
  apply port_match_call in Hm as (call & Hc & E).
  assert (Em : matched mm = call).
  { rewrite E in Et. apply app_inv_tail in Et. symmetry. exact Et. }
  rewrite Em. clear Em Et.
  destruct (le_lt_dec (length call) (length b)) as [L|L]; [exact L|exfalso].
  apply port_call_shape in Hc as (body & q & -> & Nd & Q).
  apply app_prefix in E as (t & Ec & Et); [|lia].
  assert (Last : forall l c, l ++ [c] = T "this" ++ "."%char :: body ++ [q] -> c = q).
  { intros l c El.
    change (T "this" ++ "."%char :: body ++ [q])
      with ((T "this" ++ ["."%char]) ++ body ++ [q]) in El.
    symmetry in El. exact (ends_char _ _ _ _ _ El). }
  destruct t as [|c1 [|c2 [|c3 [|c4 [|c5 t]]]]]; simpl in Et.
  - rewrite app_nil_r in Ec. rewrite Ec in L. lia.
  - injection Et as <- _. symmetry in Ec. apply Last in Ec. subst q. discriminate.
  - injection Et as <- <- _.
    change (b ++ ["t"%char; "h"%char]) with (b ++ ["t"%char] ++ ["h"%char]) in Ec.
    rewrite app_assoc in Ec. symmetry in Ec. apply Last in Ec. subst q. discriminate.
  - injection Et as <- <- <- _.
    change (b ++ ["t"%char; "h"%char; "i"%char])
      with (b ++ ["t"%char; "h"%char] ++ ["i"%char]) in Ec.
    rewrite app_assoc in Ec. symmetry in Ec. apply Last in Ec. subst q. discriminate.
  - injection Et as <- <- <- <- _.
    change (b ++ ["t"%char; "h"%char; "i"%char; "s"%char])
      with (b ++ ["t"%char; "h"%char; "i"%char] ++ ["s"%char]) in Ec.
    rewrite app_assoc in Ec. symmetry in Ec. apply Last in Ec. subst q. discriminate.
  - injection Et as <- <- <- <- <- _.
    assert (E2 : T "this" ++ "."%char :: (body ++ [q])
                 = (b ++ T "this") ++ "."%char :: t).
    { rewrite Ec. rewrite <- app_assoc. reflexivity. }
    apply split_unique with (q := not_dot) in E2 as [E2 _];
      [|reflexivity|reflexivity|exact Nd].
    apply (f_equal (@Datatypes.length ascii)) in E2. rewrite length_app in E2.
    destruct b; [contradiction|]. simpl in E2. lia.
Qed.

Lemma findall_nil re : 0 < min_len re -> findall re [] = [].
Proof. intros L. unfold findall. rewrite (finditer_nil re L). reflexivity. Qed.

Lemma findall_match re s mm :
  0 < min_len re -> match_here re s = Some mm ->
  findall re s = group 1 mm :: findall re (after mm).
Proof. intros L H. unfold findall. rewrite (finditer_match re s mm L H). reflexivity. Qed.

Lemma findall_nomatch re c s :
  match_here re (c :: s) = None -> findall re (c :: s) = findall re s.
Proof. intros H. unfold findall. rewrite (finditer_nomatch re c s H). reflexivity. Qed.

(** The names before a [this.] of the text are those of the text before it. *)
Lemma extract_app m R : forall k pre, length pre <= k ->
  extract_port_names (pre ++ T "this." ++ R) m
  = extract_port_names pre m ++ extract_port_names (T "this." ++ R) m.
Proof.
  unfold extract_port_names.
  induction k as [|k IH]; intros pre L.
  - destruct pre; [|simpl in L; lia].
    rewrite (findall_nil _ (port_pattern_len m)). reflexivity.
  - destruct pre as [|c pre].
    { rewrite (findall_nil _ (port_pattern_len m)). reflexivity. }
    destruct (match_here (port_pattern m) ((c :: pre) ++ T "this." ++ R)) as [mm|] eqn:Hm.
    + assert (Hne : c :: pre <> []) by discriminate.
      pose proof (port_no_straddle _ _ _ _ Hne Hm) as Ls.
      pose proof (match_here_min_len _ _ _ Hm) as Lm.
      pose proof (port_pattern_len m) as L0.
      pose proof (match_here_text _ _ _ Hm) as Et.
      symmetry in Et. apply app_prefix in Et as (t & Ep & Ea); [|exact Ls].
      rewrite (findall_match _ _ _ L0 Hm), Ea.
      destruct mm as [[p ps] rest]. pose proof Hm as Hs.
      apply match_here_sound in Hs as [HP _].
      assert (Hm' : match_here (port_pattern m) (c :: pre) = Some (p, ps, t)).
      { rewrite Ep. unfold matched, pieces. cbn [fst snd concat]. rewrite <- app_assoc.
        apply match_here_parse; [exact (port_pattern_det m)|exact HP]. }
      rewrite (findall_match _ _ _ L0 Hm'). unfold after. cbn [snd].
      rewrite IH; [reflexivity|].
      apply (f_equal (@Datatypes.length ascii)) in Ep.
      rewrite length_app in Ep. simpl in Ep, L. lia.
    + assert (Hm' : match_here (port_pattern m) (c :: pre) = None).
      { destruct (match_here (port_pattern m) (c :: pre)) as [[[p ps] rest]|] eqn:Hs;
          [exfalso|reflexivity].
        apply match_here_sound in Hs as [HP Es].
        apply (match_here_complete _ _ _ HP (rest ++ T "this." ++ R)).
        rewrite <- Hm. f_equal. rewrite Es. rewrite <- !app_assoc. reflexivity. }
      cbn [app] in *. rewrite (findall_nomatch _ _ _ Hm), (findall_nomatch _ _ _ Hm').
      apply IH. simpl in L. lia.
Qed.

End CallHeads.

(** X8.  A call head gives its name wherever it stands in the text: the
    names of a text with a call head in it are the names of what is before
    the head, the name of the head, and the names of what is after it. *)
Theorem extract_port_names_at_call m pre call n rest :
  port_call m n call ->
  extract_port_names (pre ++ call ++ rest) m
  = extract_port_names pre m ++ n :: extract_port_names rest m.
Proof.
  intros Hc. pose proof (extract_call m n call rest Hc) as E.
  destruct Hc as (ws1 & ws2 & q1 & q2 & -> & _).
  assert (S0 : forall x : text,
            (T "this." ++ method_name m ++ T "({" ++ ws1 ++ T "name:" ++ ws2
             ++ [q1] ++ n ++ [q2]) ++ x
            = T "this." ++ (method_name m ++ T "({" ++ ws1 ++ T "name:" ++ ws2
                            ++ [q1] ++ n ++ [q2] ++ x)).
  { intros x. repeat (simpl; rewrite <- ?app_assoc). reflexivity. }
  rewrite S0 in *.
  rewrite (extract_app m _ (length pre) pre (le_n _)), E. reflexivity.
Qed.

Lemma extract_port_names_at_call_witness :
  extract_port_names
    (T "// this.addInput({ name: 'a" ++ T "this.addInput({ name: 'b'" ++ T " })")
    addInput
  = extract_port_names (T "// this.addInput({ name: 'a") addInput
    ++ T "b" :: extract_port_names (T " })") addInput.
Proof.
  apply (extract_port_names_at_call addInput (T "// this.addInput({ name: 'a")
           (T "this.addInput({ name: 'b'") (T "b") (T " })")).
  exists (T " "), (T " "), "'"%char, "'"%char. repeat split; reflexivity.
Defined.

Section Unions.

Lemma format_type_union_cons n rest :
  format_type_union (n :: rest)
  = T "'" ++ n ++ T "'"
    ++ match rest with [] => [] | _ :: _ => T " | " ++ format_type_union rest end.
Proof.
  destruct rest as [|m rest].
  - rewrite format_type_union_one. unfold quoted. reflexivity.
  - rewrite format_type_union_more. unfold quoted. rewrite <- !app_assoc. reflexivity.
Qed.

End Unions.

(** X9.  Two lists of names with the same annotation are the same list:
    [format_type_union] loses nothing of a list of names, neither a name,
    nor the order, nor a repeat. *)
Theorem format_type_union_injective ns1 ns2 :
  (forall n, In n ns1 -> is_name n = true) ->
  (forall n, In n ns2 -> is_name n = true) ->
  format_type_union ns1 = format_type_union ns2 -> ns1 = ns2.
Proof.
  revert ns2. induction ns1 as [|n1 r1 IH]; intros [|n2 r2] H1 H2 E.
  - reflexivity.
  - rewrite format_type_union_cons in E. discriminate.
  - rewrite format_type_union_cons in E. discriminate.
  - rewrite !format_type_union_cons in E. simpl in E. injection E as E.
    apply span_eq with (q := is_word) in E.
    + destruct E as [-> E]. injection E as E. f_equal.
      destruct r1 as [|m1 r1]; destruct r2 as [|m2 r2]; try discriminate.
      * reflexivity.
      * simpl in E. injection E as E. apply IH; [| |exact E].
        -- intros k Hk. apply H1. right. exact Hk.
        -- intros k Hk. apply H2. right. exact Hk.
    + apply is_run_all, H1. left. reflexivity.
    + apply is_run_all, H2. left. reflexivity.
    + intros c t Ec. injection Ec as <- _. reflexivity.
    + intros c t Ec. injection Ec as <- _. reflexivity.
Qed.

Lemma format_type_union_injective_witness : [T "a"; T "a"] = [T "a"; T "a"].
Proof.
  apply (format_type_union_injective [T "a"; T "a"] [T "a"; T "a"]).
  - intros n [<-|[<-|[]]]; reflexivity.
  - intros n [<-|[<-|[]]]; reflexivity.
  - reflexivity.
Defined.

(** X11.  Every name [extract_port_names] returns is a non-empty run of word
    characters, so the annotation made of the names has neither a backslash
    nor [>]. *)
Theorem extract_port_names_are_names s m :
  (forall n, In n (extract_port_names s m) -> is_name n = true)
  /\ forallb is_safe (format_type_union (extract_port_names s m)) = true.
Proof.
  split.
  - intros n H. exact (extract_port_names_names s m n H).
  - apply format_type_union_safe. intros n H. apply name_safe.
    exact (extract_port_names_names s m n H).
Qed.

Lemma extract_port_names_are_names_witness : is_name (T "value") = true.
Proof.
  apply (proj1 (extract_port_names_are_names foo_node addInput) (T "value")).
  vm_compute. left. reflexivity.
Defined.

Section Frame.

Lemma main_loop_frame : forall files m k m1 k1 fs1 o1,
  main_loop files m k = (m1, k1, fs1, o1) ->
  map name fs1 = map name files
  /\ Forall2 (fun f f' =>
                f' = f
                \/ (writable f = true /\ content f <> None
                    /\ writable f' = true /\ content f' <> None)) files fs1.
Proof.
  induction files as [|f files IH]; intros m k m1 k1 fs1 o1 H.
  - cbn in H. injection H as _ _ <- _. split; [reflexivity|constructor].
  - cbn [main_loop] in H. destruct (run_file f) as [[b f'] o] eqn:R.
    assert (X : exists m0 k0 fsr or, main_loop files m0 k0 = (m1, k1, fsr, or)
                                  /\ fs1 = f' :: fsr).
    { destruct b.
      - destruct (main_loop files (S m) k) as [[[a c] d] e] eqn:E.
        injection H as <- <- <- <-. eauto 6.
      - destruct (main_loop files m (S k)) as [[[a c] d] e] eqn:E.
        injection H as <- <- <- <-. eauto 6. }
    destruct X as (m0 & k0 & fsr & or & E & ->).
    destruct (IH _ _ _ _ _ _ E) as [N F].
    destruct (run_file_outcome _ _ _ _ R)
      as [[_ ->]|(_ & s & ti & to & Hc & Hw & _ & -> & _)].
    + split; [simpl; rewrite N; reflexivity|]. constructor; [left; reflexivity|exact F].
    + split; [simpl; rewrite N; reflexivity|]. constructor; [|exact F].
      right. cbn [writable content]. rewrite Hc.
      repeat split; try assumption; discriminate.
Qed.

End Frame.

(** X10.  A run of [main] keeps the files of the tree, their names and
    their order; a file it has changed could be read and written before and
    can be after. *)
Theorem main_frame files s1 fs1 out :
  main (Some files) = (s1, Some fs1, out) ->
  map name fs1 = map name files
  /\ Forall2 (fun f f' =>
                f' = f
                \/ (writable f = true /\ content f <> None
                    /\ writable f' = true /\ content f' <> None)) files fs1.
Proof.
  intros H. unfold main in H.
  destruct (main_loop files 0 0) as [[[m k] fs] o] eqn:E.
  injection H as _ <- _. exact (main_loop_frame _ _ _ _ _ _ _ E).
Qed.

Lemma main_frame_witness :
  map name (snd (fst (main_loop
     [File (T "x.ts") None true; File (T "foo.ts") (Some foo_node) true] 0 0)))
  = [T "x.ts"; T "foo.ts"].
Proof.
  refine (proj1 (main_frame
            [File (T "x.ts") None true; File (T "foo.ts") (Some foo_node) true]
            _ _ _ _)).
  vm_compute. reflexivity.
Defined.

Section Report.

Lemma file_eqb_refl f : file_eqb f f = true.
Proof.
  destruct f as [nm [s|] wr]; unfold file_eqb; cbn;
    rewrite ?text_eqb_refl; destruct wr; reflexivity.
Qed.

Lemma file_eqb_content f g :
  file_eqb f g = true -> content f = content g.
Proof.
  unfold file_eqb. intros H. apply andb_prop in H as [H _]. apply andb_prop in H as [_ H].
  destruct (content f) as [x|], (content g) as [y|]; try discriminate; [|reflexivity].
  cbn in H. apply text_eqb_eq in H. subst. reflexivity.
Qed.

Lemma changed_le : forall files fs, changed files fs <= length files.
Proof.
  induction files as [|x xs IH]; intros [|y ys]; cbn; try lia.
  specialize (IH ys). destruct (file_eqb x y); lia.
Qed.

Lemma main_loop_changed : forall files m k m1 k1 fs1 o1,
  main_loop files m k = (m1, k1, fs1, o1) ->
  m1 = m + changed files fs1 /\ k1 = k + (length files - changed files fs1).
Proof.
  induction files as [|f files IH]; intros m k m1 k1 fs1 o1 H.
  - cbn in H. injection H as <- <- <- _. cbn. lia.
  - cbn [main_loop] in H. destruct (run_file f) as [[b f'] o] eqn:R.
    pose proof (run_file_outcome _ _ _ _ R) as O.
    destruct b.
    + destruct (main_loop files (S m) k) as [[[a c] d] e] eqn:E.
      injection H as <- <- <- _. apply IH in E as [-> ->].
      destruct O as [[X _]|(_ & s & ti & to & Hc & _ & _ & -> & Ne & _)]; [discriminate|].
      cbn [changed length].
      destruct (file_eqb f _) eqn:Q.
      * apply file_eqb_content in Q. cbn [content] in Q. rewrite Hc in Q.
        injection Q as Q. symmetry in Q. contradiction.
      * pose proof (changed_le files d). lia.
    + destruct (main_loop files m (S k)) as [[[a c] d] e] eqn:E.
      injection H as <- <- <- _. apply IH in E as [-> ->].
      destruct O as [[_ ->]|(X & _)]; [|discriminate].
      cbn [changed length]. rewrite file_eqb_refl.
      pose proof (changed_le files d). lia.
Qed.

End Report.

(** X12.  The summary of [main] is true to the tree: the total is the
    number of files and the sum of the two counts, every file counted as
    modified has been changed, and in a run without a write error the
    modified count is the number of files the run has changed and the
    skipped count the number of the others. *)
Theorem main_summary_counts files m k t fs1 out :
  main (Some files) = (Some (Counts m k t), Some fs1, out) ->
  t = length files /\ m + k = t /\ m <= changed files fs1
  /\ (~ In (Error WriteError) out ->
      m = changed files fs1 /\ k = length files - changed files fs1).
Proof.
  intros H. unfold main in H.
  destruct (main_loop files 0 0) as [[[m0 k0] fs] o] eqn:E.
  injection H as <- <- <- <- _.
  pose proof (changed_le files fs) as Lc.
  apply main_loop_changed in E as [-> ->]. repeat split; lia.
Qed.

Lemma main_summary_counts_witness :
  2 = length [File (T "x.ts") None true; File (T "foo.ts") (Some foo_node) true]
  /\ 1 + 1 = 2
  /\ 1 <= changed [File (T "x.ts") None true; File (T "foo.ts") (Some foo_node) true]
            (snd (fst (main_loop
               [File (T "x.ts") None true; File (T "foo.ts") (Some foo_node) true] 0 0)))
  /\ 1 = changed [File (T "x.ts") None true; File (T "foo.ts") (Some foo_node) true]
           (snd (fst (main_loop
              [File (T "x.ts") None true; File (T "foo.ts") (Some foo_node) true] 0 0)))
  /\ 1 = length [File (T "x.ts") None true; File (T "foo.ts") (Some foo_node) true]
         - changed [File (T "x.ts") None true; File (T "foo.ts") (Some foo_node) true]
             (snd (fst (main_loop
                [File (T "x.ts") None true; File (T "foo.ts") (Some foo_node) true] 0 0))).
Proof.
  assert (R : main (Some [File (T "x.ts") None true;
                          File (T "foo.ts") (Some foo_node) true])
              = (Some (Counts 1 1 2),
                 Some (snd (fst (main_loop
                    [File (T "x.ts") None true;
                     File (T "foo.ts") (Some foo_node) true] 0 0))),
                 snd (main (Some [File (T "x.ts") None true;
                                  File (T "foo.ts") (Some foo_node) true]))))
    by (vm_compute; reflexivity).
  destruct (main_summary_counts _ _ _ _ _ _ R) as (A & B & C & D).
  split; [exact A|]. split; [exact B|]. split; [exact C|].
  apply D. vm_compute. intuition discriminate.
Defined.

(** X13.  [process_file] prints the line of the added type parameters
    exactly when it returns [True]. *)
Theorem added_line_iff_modified f b f' log :
  run_file f = (b, f', log) -> (b = true <-> existsb is_added log = true).
Proof.
  intros H. destruct f as [nm [s|] wr].
  2: { cbn in H. injection H as <- _ <-. cbn. split; discriminate. }
  rewrite run_file_eq in H. cbn [content name writable] in H.
  destruct (negb (truthy (get_class_name s)));
    [injection H as <- _ <-; cbn; split; discriminate|].
  destruct (negb (truthy (get_base_class s)));
    [injection H as <- _ <-; cbn; split; discriminate|].
  destruct (py_in _ reserved); [injection H as <- _ <-; cbn; split; discriminate|].
  destruct (has_type_parameters s); [injection H as <- _ <-; cbn; split; discriminate|].
  cbv zeta in H. unfold port_log in H.
  destruct (text_eqb _ s); [|destruct wr];
    destruct (is_dynamic_ports_node _);
    injection H as <- _ <-; cbn; split; (discriminate || reflexivity).
Qed.

Lemma added_line_iff_modified_witness :
  true = true <->
  existsb is_added
    [Processing (T "foo.ts"); Inputs [T "value"]; Outputs [T "result"];
     Added (T "'value'") (T "'result'")] = true.
Proof.
  refine (added_line_iff_modified (File (T "foo.ts") (Some foo_node) true) true _ _ _).
  vm_compute. reflexivity.
Defined.
